(** * rules2lint: the rule-processing pipeline

    A shallow embedding of the pipeline of rules2lint
    (config.py, llm_interactions.py, rule_processing.py) and the
    properties of its stages: template rendering, the refine and extract
    stages, the parallel orchestrator and the aggregator.

    Python values are embedded as a small universe of plain data, calls
    that may raise live in a writer/exception monad whose log records the
    messages the code prints, and the remote model is a parameter. *)

From Stdlib Require Import Ascii.
From stdpp Require Import gmap strings list fin_maps sets.

Set Warnings "-register-all".

(** ** Python values *)

Module Py.

(** Plain data, as [json.loads] produces it and as the templates build
    it.  Numbers are integers: the pipeline never computes with them. *)
Inductive pyval :=
  | PNone
  | PBool (b : bool)
  | PInt (z : Z)
  | PStr (s : string)
  | PList (l : list pyval)
  | PDict (d : gmap string pyval).

(** Objects with attributes, as the gateway's reply is:
    [response.choices[0].message.content].  [Val] is plain data, [Obj] an
    object known by its attributes, [Seq] a list of objects. *)
Inductive pyobj :=
  | Val (v : pyval)
  | Obj (attrs : gmap string pyobj)
  | Seq (items : list pyobj).

(** The exception classes the pipeline meets.  [OtherException] stands for
    any other subclass of [Exception] (timeouts, transport errors, ...),
    none of them a subclass of the named ones. *)
Inductive exn :=
  | AttributeError
  | TypeError
  | IndexError
  | KeyError
  | JSONDecodeError
  | UnboundLocalError
  | OtherException (name : string).

Inductive result (A : Type) :=
  | Ok (a : A)
  | Raise (e : exn).
Arguments Ok {A} a.
Arguments Raise {A} e.

(** Truth value of [if v] / [not v]. *)
Definition truthy (v : pyval) : bool :=
  match v with
  | PNone => false
  | PBool b => b
  | PInt z => negb (z =? 0)%Z
  | PStr s => negb (String.eqb s EmptyString)
  | PList l => match l with [] => false | _ => true end
  | PDict d => negb (bool_decide (d = ∅))
  end.

Definition is_dict (v : pyval) : bool :=
  match v with PDict _ => true | _ => false end.

(** [v == "s"] for a string literal. *)
Definition eq_str (v : pyval) (s : string) : bool :=
  match v with PStr t => String.eqb t s | _ => false end.

(** Members of a Python [set]: hashable values up to [==].  [True] and
    [1] (and [False] and [0]) are one member. *)
Inductive hkey :=
  | KNone
  | KInt (z : Z)
  | KStr (s : string).

#[global] Instance hkey_eq_dec : EqDecision hkey.
Proof. solve_decision. Defined.

#[global] Instance hkey_countable : Countable hkey.
Proof.
  refine (inj_countable'
    (fun k => match k with
              | KNone => inl ()
              | KInt z => inr (inl z)
              | KStr s => inr (inr s)
              end)
    (fun x => match x with
              | inl _ => KNone
              | inr (inl z) => KInt z
              | inr (inr s) => KStr s
              end) _).
  by intros [].
Defined.

(** [hash(v)]: lists and dicts are unhashable. *)
Definition hash_key (v : pyval) : result hkey :=
  match v with
  | PNone => Ok KNone
  | PBool b => Ok (KInt (if b then 1 else 0))
  | PInt z => Ok (KInt z)
  | PStr s => Ok (KStr s)
  | PList _ | PDict _ => Raise TypeError
  end.

End Py.
Export Py.

(** ** Messages and the effect monad *)

(** One constructor per message the pipeline writes ([print] and
    [tqdm.write]), carrying the values its f-string interpolates. *)
Inductive event :=
  | TemplateError (term context : pyval) (rule_text : string) (e : exn)
  | FlagMissingTerm (rule_text : string) (flag : pyval)
  | ProcessingRules (n : nat)
  | ExtractingFlags
  | FutureError (exc : exn)
  | TracebackLogged (exc : exn)
  | Aggregating (n : nat)
  | SkipInvalidConfig (config : pyval)
  | RefineError (rule_text : string) (e : exn)
  | ExtractMalformed (rule_text : string) (parsed : pyval)
  | ExtractParseError (rule_text : string) (e : exn) (choice : pyobj)
  | ExtractCallError (rule_text : string) (e : exn).

(** The source-rule text a message embeds, if any. *)
Definition event_rule_text (ev : event) : option string :=
  match ev with
  | TemplateError _ _ r _ | FlagMissingTerm r _ | RefineError r _
  | ExtractMalformed r _ | ExtractParseError r _ _ | ExtractCallError r _ => Some r
  | _ => None
  end.

(** A computation writes messages and then returns or raises. *)
Definition M (A : Type) : Type := (list event * result A)%type.

#[global] Instance M_ret : MRet M := fun A a => ([], Ok a).
#[global] Instance M_bind : MBind M := fun A B f m =>
  match m with
  | (w, Ok a) => let '(w', r) := f a in (w ++ w', r)
  | (w, Raise e) => (w, Raise e)
  end.

Definition raise {A} (e : exn) : M A := ([], Raise e).
Definition tell (ev : event) : M () := ([ev], Ok ()).
Definition lift {A} (r : result A) : M A := ([], r).

(** [try: m  except Exception as e: h e] *)
Definition try_except {A} (m : M A) (h : exn -> M A) : M A :=
  match m with
  | (w, Ok a) => (w, Ok a)
  | (w, Raise e) => let '(w', r) := h e in (w ++ w', r)
  end.

Definition written {A} (m : M A) : list event := m.1.
Definition outcome {A} (m : M A) : result A := m.2.

(** ** Python primitives used by the pipeline *)

(** [v.get(key, default)]: only dicts have the method. *)
Definition dict_get (v : pyval) (key : string) (dflt : pyval) : M pyval :=
  match v with
  | PDict d => mret (default dflt (d !! key))
  | _ => raise AttributeError
  end.

(** A method of [str] called on [v] ([term.replace]): other plain data
    has no such attribute. *)
Definition as_str (v : pyval) : M string :=
  match v with
  | PStr s => mret s
  | _ => raise AttributeError
  end.

Definition backslash : ascii := "092"%char.
Definition squote : ascii := "039"%char.
Definition dquote : ascii := "034"%char.

(** [s.replace(old, new)] for a one-character [old]. *)
Fixpoint str_replace (old : ascii) (new : string) (s : string) : string :=
  match s with
  | EmptyString => EmptyString
  | String c r =>
      if Ascii.eqb c old then new +:+ str_replace old new r
      else String c (str_replace old new r)
  end.

Definition upper (c : ascii) : ascii :=
  let n := nat_of_ascii c in
  if (97 <=? n) && (n <=? 122) then ascii_of_nat (n - 32) else c.

Definition lower (c : ascii) : ascii :=
  let n := nat_of_ascii c in
  if (65 <=? n) && (n <=? 90) then ascii_of_nat (n + 32) else c.

Fixpoint str_map (f : ascii -> ascii) (s : string) : string :=
  match s with
  | EmptyString => EmptyString
  | String c r => String (f c) (str_map f r)
  end.

(** [s.capitalize()] on ASCII text: first character upper case, the rest
    lower case. *)
Definition capitalize (s : string) : string :=
  match s with
  | EmptyString => EmptyString
  | String c r => String (upper c) (str_map lower r)
  end.

(** ** config.py *)

(** A template is a Python callable of [(kw, rule)]: it returns a config
    or raises. *)
Definition template : Type := string -> string -> M pyval.

Definition pattern_config (selector message : string) : pyval :=
  PDict {[ "selector" := PStr selector; "message" := PStr message ]}.

Definition Identifier_template : template := fun kw rule =>
  mret (pattern_config
    ("Identifier[name='" +:+ kw +:+ "']")
    ("Usage of identifier '" +:+ kw +:+ "' is restricted by rule: " +:+ rule)).

Definition Literal_template : template := fun kw rule =>
  mret (pattern_config
    ("Literal[value='" +:+ kw +:+ "']")
    ("Usage of literal '" +:+ kw +:+ "' is restricted by rule: " +:+ rule)).

Definition Operator_template : template := fun kw rule =>
  mret (pattern_config
    (":matches(BinaryExpression, LogicalExpression)[operator='" +:+ kw +:+ "']")
    ("Usage of operator '" +:+ kw +:+ "' is restricted by rule: " +:+ rule)).

Definition Keyword_template : template := fun kw rule =>
  mret (pattern_config
    (capitalize kw +:+ "Statement")
    ("Usage of keyword '" +:+ kw +:+ "' is restricted by rule: " +:+ rule)).

Definition Property_template : template := fun kw rule =>
  mret (pattern_config
    ("MemberExpression[property.name='" +:+ kw +:+ "']")
    ("Usage of property '" +:+ kw +:+ "' is restricted by rule: " +:+ rule)).

Definition Import_template : template := fun kw rule =>
  mret (pattern_config
    ("ImportDeclaration[source.value='" +:+ kw +:+ "']")
    ("Import from '" +:+ kw +:+ "' is restricted by rule: " +:+ rule)).

Definition Unknown_template : template := fun kw rule =>
  mret (pattern_config
    (":matches(Identifier[name='" +:+ kw +:+ "'], Literal[value='" +:+ kw +:+ "'])")
    ("Usage of '" +:+ kw +:+ "' is restricted by rule: " +:+ rule +:+ " (context unknown)")).

Definition KEYWORD_TEMPLATES : gmap string template :=
  {[ "Identifier" := Identifier_template;
     "Literal" := Literal_template;
     "Operator" := Operator_template;
     "Keyword" := Keyword_template;
     "Property" := Property_template;
     "Import" := Import_template;
     "Unknown" := Unknown_template ]}.

Definition MAX_WORKERS : nat := 8.

(** The six recognized context tags. *)
Definition recognized_tags : list string :=
  ["Identifier"; "Literal"; "Operator"; "Keyword"; "Property"; "Import"].

(** ** rule_processing.py: rendering *)

(** [registry[key]] *)
Definition registry_item (registry : gmap string template) (key : string) : M template :=
  match registry !! key with
  | Some f => mret f
  | None => raise KeyError
  end.

(** [registry.get(context, dflt)]: the key is hashed first. *)
Definition registry_get (registry : gmap string template) (context : pyval)
    (dflt : template) : M template :=
  k ← lift (hash_key context);
  mret (match k with
        | KStr s => default dflt (registry !! s)
        | _ => dflt
        end).

(** The escaping for message strings: backslash, then both quotes. *)
Definition js_escape (s : string) : string :=
  str_replace dquote (String backslash (String dquote EmptyString))
    (str_replace squote (String backslash (String squote EmptyString))
      (str_replace backslash (String backslash (String backslash EmptyString)) s)).

(** The escaping for selectors: single quotes only. *)
Definition selector_escape (s : string) : string :=
  str_replace squote (String backslash (String squote EmptyString)) s.

(** [generate_eslint_config_object] over a given template registry. *)
Definition generate_eslint_config_object_with (registry : gmap string template)
    (term context : pyval) (rule_text : string) : M pyval :=
  t ← as_str term;
  let js_escaped_term := js_escape t in
  let js_escaped_rule_text := js_escape rule_text in
  let selector_escaped_term := selector_escape t in
  unknown ← registry_item registry "Unknown";
  template_func ← registry_get registry context unknown;
  try_except (template_func selector_escaped_term js_escaped_rule_text)
    (fun e => tell (TemplateError term context rule_text e);; mret PNone).

Definition generate_eslint_config_object : pyval -> pyval -> string -> M pyval :=
  generate_eslint_config_object_with KEYWORD_TEMPLATES.

(** [for x in xs: acc = step acc x], a raise ending the loop. *)
Fixpoint foldlM {A B} (step : A -> B -> M A) (acc : A) (xs : list B) : M A :=
  match xs with
  | [] => mret acc
  | x :: xs' => acc' ← step acc x; foldlM step acc' xs'
  end.

(** ** llm_interactions.py *)

Inductive stage := Filter | Refine | Extract.

(** The gateway: what [client.chat.completions.create] does for the
    request a stage builds from a text, the reply object it returns or the
    exception it raises. *)
Definition Client : Type := stage -> string -> result pyobj.

(** [o.name] *)
Definition getattr (o : pyobj) (name : string) : M pyobj :=
  match o with
  | Obj attrs =>
      match attrs !! name with
      | Some v => mret v
      | None => raise AttributeError
      end
  | _ => raise AttributeError
  end.

(** [getattr(o, name, dflt)] *)
Definition getattr_default (o : pyobj) (name : string) (dflt : pyobj) : pyobj :=
  match o with
  | Obj attrs => default dflt (attrs !! name)
  | _ => dflt
  end.

(** [o[0]] *)
Definition subscript0 (o : pyobj) : M pyobj :=
  match o with
  | Seq (x :: _) => mret x
  | Seq [] => raise IndexError
  | Val (PList (x :: _)) => mret (Val x)
  | Val (PList []) => raise IndexError
  | Val (PStr (String c _)) => mret (Val (PStr (String c EmptyString)))
  | Val (PStr EmptyString) => raise IndexError
  | Val (PDict _) => raise KeyError
  | Val _ | Obj _ => raise TypeError
  end.

Definition is_parse_error (e : exn) : bool :=
  match e with
  | JSONDecodeError | IndexError | AttributeError => true
  | _ => false
  end.

Section Stages.

(** [json.loads] on a string: the value, or [None] for a
    [JSONDecodeError]. *)
Variable json_loads : string -> option pyval.

Definition loads (content : pyobj) : M pyval :=
  match content with
  | Val (PStr s) =>
      match json_loads s with
      | Some v => mret v
      | None => raise JSONDecodeError
      end
  | _ => raise TypeError
  end.

(** [json.loads(response.choices[0].message.content)] *)
Definition response_json (response : pyobj) : M pyval :=
  choices ← getattr response "choices";
  choice ← subscript0 choices;
  message ← getattr choice "message";
  content ← getattr message "content";
  loads content.

Definition llm_refine_rule (client : Client) (rule_text : string) : M (pyval * pyval) :=
  try_except
    (response ← lift (client Refine rule_text);
     result_json ← response_json response;
     outcome ← dict_get result_json "outcome" (PStr "untranslatable");
     refined_list ← dict_get result_json "refined_rules" (PList []);
     mret
       (if eq_str outcome "passed_through" && negb (truthy refined_list)
        then (outcome, PList [PStr rule_text])
        else if eq_str outcome "translated" && negb (truthy refined_list)
        then (PStr "untranslatable", refined_list)
        else if eq_str outcome "untranslatable"
        then (outcome, PList [])
        else (outcome, refined_list)))
    (fun e =>
       tell (RefineError rule_text e);;
       mret (PStr "passed_through", PList [PStr rule_text])).

(** The two [except] clauses of [llm_extract_flags].  [response] is
    [None] while the local variable is still unbound; what the first
    handler raises while formatting its message leaves the function. *)
Definition extract_handler (rule_text : string) (response : option pyobj)
    (e : exn) : M (list pyval) :=
  if is_parse_error e then
    r ← from_option mret (raise UnboundLocalError) response;
    choice ← subscript0 (getattr_default r "choices" (Seq [Val PNone]));
    tell (ExtractParseError rule_text e choice);;
    mret []
  else
    tell (ExtractCallError rule_text e);;
    mret [].

Definition llm_extract_flags (client : Client) (rule_text : string) : M (list pyval) :=
  match client Extract rule_text with
  | Raise e => extract_handler rule_text None e
  | Ok response =>
      try_except
        (result ← response_json response;
         match result with
         | PDict d =>
             match d !! "flags" with
             | Some (PList flags) => mret flags
             | _ => tell (ExtractMalformed rule_text result);; mret []
             end
         | _ => tell (ExtractMalformed rule_text result);; mret []
         end)
        (extract_handler rule_text (Some response))
  end.

(** ** rule_processing.py: tasks and the orchestrator *)

(** The body of the loop over the extracted flags. *)
Definition process_flag (rule_text : string)
    (generated_configs : list (pyval * pyval)) (flag : pyval) : M (list (pyval * pyval)) :=
  term ← dict_get flag "term" PNone;
  context ← dict_get flag "context" (PStr "Unknown");
  severity ← dict_get flag "severity" (PStr "warn");
  if negb (truthy term) then
    tell (FlagMissingTerm rule_text flag);;
    mret generated_configs
  else
    config ← generate_eslint_config_object term context rule_text;
    mret (if truthy config then generated_configs ++ [(severity, config)]
          else generated_configs).

Definition process_refined_rule (client : Client) (rule_text : string)
    : M (list (pyval * pyval)) :=
  extracted_flags ← llm_extract_flags client rule_text;
  match extracted_flags with
  | [] => mret []
  | _ => foldlM (process_flag rule_text) [] extracted_flags
  end.

(** One task per refined rule, in submission order.  [client i] is the
    gateway as the [i]-th task meets it: a remote model need not answer
    one request twice alike. *)
Definition tasks (client : nat -> Client) (refined_rules : list string)
    : list (M (list (pyval * pyval))) :=
  imap (fun i rule_text => process_refined_rule (client i) rule_text) refined_rules.

(** The body of the join loop: [future.result()] returns the task's list
    or raises what the task raised. *)
Definition collect (all_flag_configs : list (pyval * pyval))
    (future : result (list (pyval * pyval))) : M (list (pyval * pyval)) :=
  try_except
    (result_list ← lift future;
     mret (match result_list with
           | [] => all_flag_configs
           | _ => all_flag_configs ++ result_list
           end))
    (fun exc =>
       tell (FutureError exc);;
       tell (TracebackLogged exc);;
       mret all_flag_configs).

(** [completed] is the order in which [as_completed] hands over the
    futures, as indices into the submission order.  The log is the main
    thread's; the workers write theirs ([written] of each task) from
    their own threads. *)
Definition run_parallel_rule_processing (client : nat -> Client)
    (refined_rules : list string) (completed : list nat) : M (list (pyval * pyval)) :=
  tell (ProcessingRules (length refined_rules));;
  let futures := outcome <$> tasks client refined_rules in
  tell ExtractingFlags;;
  foldlM collect [] (omap (fun i => futures !! i) completed).

End Stages.

(** ** rule_processing.py: the aggregator *)

Record agg_state := AggState {
  combined_syntax_configs : list pyval;
  highest_severity : string;
  seen_selectors : gset hkey
}.

Definition agg_init : agg_state :=
  {| combined_syntax_configs := []; highest_severity := "warn"; seen_selectors := ∅ |}.

(** The body of the aggregation loop. *)
Definition aggregate_step (st : agg_state) (item : pyval * pyval) : M agg_state :=
  let '(severity, config) := item in
  selector ← dict_get config "selector" PNone;
  fresh ← (if is_dict config && truthy selector then
             k ← lift (hash_key selector);
             mret (if bool_decide (k ∈ seen_selectors st) then None else Some k)
           else mret None);
  match fresh with
  | Some k =>
      mret {| combined_syntax_configs := combined_syntax_configs st ++ [config];
              highest_severity :=
                if eq_str severity "error" then "error" else highest_severity st;
              seen_selectors := {[ k ]} ∪ seen_selectors st |}
  | None =>
      if negb (is_dict config) then
        tell (SkipInvalidConfig config);;
        mret st
      else mret st
  end.

Definition aggregate_loop (all_flag_configs : list (pyval * pyval)) : M agg_state :=
  foldlM aggregate_step agg_init all_flag_configs.

(** What is built after the loop:
    [(final_rules_object, highest_severity, rule_count)]. *)
Definition final_result (st : agg_state) : gmap string pyval * string * nat :=
  match combined_syntax_configs st with
  | [] => (∅, highest_severity st, 0)
  | _ =>
      ({[ "no-restricted-syntax" :=
            PList (PStr (highest_severity st) :: combined_syntax_configs st) ]},
       highest_severity st,
       length (combined_syntax_configs st))
  end.

Definition aggregate_eslint_configs (all_flag_configs : list (pyval * pyval))
    : M (gmap string pyval * string * nat) :=
  tell (Aggregating (length all_flag_configs));;
  st ← aggregate_loop all_flag_configs;
  mret (final_result st).

(** The pattern sequence of a rules object: the entry's list after its
    leading severity. *)
Definition patterns (final_rules_object : gmap string pyval) : list pyval :=
  match final_rules_object !! "no-restricted-syntax" with
  | Some (PList (_ :: configs)) => configs
  | _ => []
  end.

(** ** Vocabulary of the statements *)

(** The [selector] string of a config, if it is a dict that has one. *)
Definition selector_of (config : pyval) : option string :=
  match config with
  | PDict d =>
      match d !! "selector" with
      | Some (PStr s) => Some s
      | _ => None
      end
  | _ => None
  end.

(** A PatternConfig: a dict whose [selector] and [message] are strings. *)
Definition is_pattern_config (config : pyval) : bool :=
  match config with
  | PDict d =>
      match d !! "selector", d !! "message" with
      | Some (PStr _), Some (PStr _) => true
      | _, _ => false
      end
  | _ => false
  end.

Definition nonempty_selector (config : pyval) : bool :=
  match selector_of config with
  | Some s => negb (String.eqb s EmptyString)
  | None => false
  end.

(** First-seen deduplication by selector, as an equation on lists: keep
    the head, drop every later config with the head's selector. *)
Fixpoint first_seen (configs : list pyval) : list pyval :=
  match configs with
  | [] => []
  | c :: rest =>
      c :: filter (fun c' => selector_of c' ≠ selector_of c) (first_seen rest)
  end.

(** A config that cannot enter the sequence: a dict whose [selector] is
    missing, [None] or empty. *)
Definition contributes_nothing (config : pyval) : bool :=
  match config with
  | PDict d => negb (truthy (default PNone (d !! "selector")))
  | _ => false
  end.

(** The state after the loop body appended [config] under the key [k]. *)
Definition appended (st : agg_state) (severity config : pyval) (k : hkey) : agg_state :=
  {| combined_syntax_configs := combined_syntax_configs st ++ [config];
     highest_severity := if eq_str severity "error" then "error" else highest_severity st;
     seen_selectors := {[ k ]} ∪ seen_selectors st |}.

(** No selector of the set [seen] is the config's. *)
Definition unseen (seen : gset hkey) (config : pyval) : Prop :=
  ∀ s, selector_of config = Some s -> KStr s ∉ seen.

#[local] Instance unseen_dec seen config : Decision (unseen seen config).
Proof.
  unfold unseen. destruct (selector_of config) as [s|].
  - destruct (decide (KStr s ∈ seen)) as [Hin|Hin].
    + right. intros H. by apply (H s).
    + left. by intros ? [= <-].
  - left. done.
Defined.

(** A gateway reply whose first choice carries [content]. *)
Definition chat_reply (content : string) : pyobj :=
  Obj {[ "choices" :=
           Seq [Obj {[ "message" := Obj {[ "content" := Val (PStr content) ]} ]}] ]}.

(** The futures in the order [as_completed] hands them over: [completed]
    lists their indices in the submission order. *)
Definition in_completion_order {A} (futures : list A) (completed : list nat) : list A :=
  omap (fun i => futures !! i) completed.

(** The lists of the futures that returned, in the futures' order. *)
Definition returned {A} (futures : list (result A)) : list A :=
  omap (fun f => match f with Ok r => Some r | Raise _ => None end) futures.

(** What the futures that failed raised, in the futures' order, and the
    messages the join loop writes for them. *)
Definition failures {A} (futures : list (result A)) : list exn :=
  omap (fun f => match f with Ok _ => None | Raise e => Some e end) futures.

Definition failure_log {A} (futures : list (result A)) : list event :=
  e ← failures futures; [FutureError e; TracebackLogged e].

(** A parser and a gateway to run the stages on: the reply to the first
    task parses to a [flags] list holding a number, the replies to the
    others to one well-formed flag. *)
Definition sample_loads (s : string) : option pyval :=
  if String.eqb s "good" then
    Some (PDict {[ "flags" :=
      PList [PDict {[ "term" := PStr "eval"; "context" := PStr "Identifier";
                      "severity" := PStr "error" ]}] ]})
  else if String.eqb s "bad" then Some (PDict {[ "flags" := PList [PInt 5] ]})
  else if String.eqb s "text" then Some (PDict {[ "flags" := PStr "none" ]})
  else None.

Definition sample_client (i : nat) : Client :=
  fun _ _ => Ok (chat_reply (if Nat.eqb i 0 then "bad" else "good")).

(** The aggregator's output fed back to it: each config paired with the
    overall severity. *)
Definition rewrap (r : gmap string pyval * string * nat) : list (pyval * pyval) :=
  (fun c => (PStr r.1.2, c)) <$> patterns r.1.1.

(** ** Further vocabulary: escaping *)

(** One pass over a string that puts a backslash before every character
    [special] selects. *)
Fixpoint escape_chars (special : ascii -> bool) (s : string) : string :=
  match s with
  | EmptyString => EmptyString
  | String c r =>
      if special c then String backslash (String c (escape_chars special r))
      else String c (escape_chars special r)
  end.

Definition js_special (c : ascii) : bool :=
  Ascii.eqb c backslash || Ascii.eqb c squote || Ascii.eqb c dquote.

Definition selector_special (c : ascii) : bool := Ascii.eqb c squote.

(** [sub in s] *)
Definition contains (sub s : string) : Prop :=
  ∃ before after, s = before +:+ sub +:+ after.

(** The [message] string of a config, if it is a dict that has one. *)
Definition message_of (config : pyval) : option string :=
  match config with
  | PDict d =>
      match d !! "message" with
      | Some (PStr s) => Some s
      | _ => None
      end
  | _ => None
  end.

(** ** rule_processing.py: the size of the worker pool *)

(** [min(MAX_WORKERS, (os.cpu_count() or 1) + 4)]; [os.cpu_count()] is
    [None] when the count is unknown. *)
Definition num_workers (cpu_count : option nat) : nat :=
  MAX_WORKERS `min`
    ((match cpu_count with
      | Some n => if Nat.eqb n 0 then 1 else n
      | None => 1
      end) + 4).

(** ** Further vocabulary: flags *)

(** What [process_refined_rule] reads of a flag. *)
Definition flag_term (flag : pyval) : pyval :=
  match flag with PDict d => default PNone (d !! "term") | _ => PNone end.

Definition flag_context (flag : pyval) : pyval :=
  match flag with PDict d => default (PStr "Unknown") (d !! "context") | _ => PNone end.

Definition flag_severity (flag : pyval) : pyval :=
  match flag with PDict d => default (PStr "warn") (d !! "severity") | _ => PNone end.

(** A flag object whose term is a string, or missing, and whose context
    is a string, or missing. *)
Definition well_shaped_flag (flag : pyval) : bool :=
  is_dict flag &&
  match flag_term flag with PStr _ | PNone => true | _ => false end &&
  match flag_context flag with PStr _ => true | _ => false end.

(** ** Further vocabulary: the aggregator *)

(** An [error] pair that the loop appends: its selector is not empty and
    no earlier pair has it. *)
Definition appended_error_pair (l : list (pyval * pyval)) : Prop :=
  ∃ i severity config,
    l !! i = Some (severity, config) ∧
    eq_str severity "error" = true ∧
    nonempty_selector config = true ∧
    ∀ j p, j < i -> l !! j = Some p -> selector_of p.2 ≠ selector_of config.

(** ** llm_interactions.py: the filter stage *)

(** The messages of the filter stage. *)
Inductive filter_event :=
  | FilteringRules
  | FilteringComplete (found : nat)
  | FilterParseError (e : exn)
  | FilterCallError (e : exn).

Definition newline : ascii := "010"%char.

(** [sep.join(lines)] for the newline *)
Fixpoint join_lines (lines : list string) : string :=
  match lines with
  | [] => EmptyString
  | [line] => line
  | line :: rest => line +:+ String newline (join_lines rest)
  end.

(** [len(v)] *)
Definition py_len (v : pyval) : M nat :=
  match v with
  | PStr s => mret (String.length s)
  | PList l => mret (length l)
  | PDict d => mret (size d)
  | _ => raise TypeError
  end.

Section FilterStage.

Variable json_loads : string -> option pyval.

(** The [try] block of [llm_filter_rules], up to the count it prints. *)
Definition filter_attempt (client : Client) (raw_lines : list string)
    : M (pyval * pyval * nat) :=
  response ← lift (client Filter (join_lines raw_lines));
  result_json ← response_json json_loads response;
  lintable ← dict_get result_json "lintable_rules" (PList []);
  filtered ← dict_get result_json "filtered_out" (PList []);
  found ← py_len lintable;
  mret (lintable, filtered, found).

Definition llm_filter_rules (client : Client) (raw_lines : list string)
    : list filter_event * result (pyval * pyval) :=
  match outcome (filter_attempt client raw_lines) with
  | Ok (lintable, filtered, found) =>
      ([FilteringRules; FilteringComplete found], Ok (lintable, filtered))
  | Raise e =>
      ([FilteringRules;
        if is_parse_error e then FilterParseError e else FilterCallError e],
       Ok (PList (PStr <$> raw_lines), PList []))
  end.

End FilterStage.

(** * Properties *)

Ltac msimpl :=
  repeat (unfold mbind, mret, M_bind, M_ret, lift, raise, tell, try_except; simpl).

(** ** The monad *)

Lemma bind_ok {A B} (f : A -> M B) (a : A) : (mret a ≫= f) = f a.
Proof. unfold mbind, mret, M_bind, M_ret. by destruct (f a). Qed.

Lemma bind_silent {A B} (m : M A) (f : A -> M B) :
  written m = [] -> (∀ a, written (f a) = []) -> written (m ≫= f) = [].
Proof.
  destruct m as [w [a|e]]; simpl; intros -> Hf; [|done].
  msimpl. specialize (Hf a). by destruct (f a).
Qed.

Lemma foldlM_app {A B} (step : A -> B -> M A) (xs ys : list B) (acc acc' : A) :
  foldlM step acc xs = ([], Ok acc') ->
  foldlM step acc (xs ++ ys) = foldlM step acc' ys.
Proof.
  revert acc. induction xs as [|x xs IH]; intros acc; simpl.
  - by intros [= ->].
  - unfold mbind, M_bind. destruct (step acc x) as [w [a|e]]; [|done].
    destruct (foldlM step a xs) as [w' r] eqn:E.
    intros [= Hw ->]. apply app_eq_nil in Hw as [-> ->].
    rewrite (IH a E). by destruct (foldlM step acc' ys).
Qed.

(** ** The aggregator's loop body *)

Lemma aggregate_step_not_dict st severity config :
  is_dict config = false ->
  aggregate_step st (severity, config) = ([], Raise AttributeError).
Proof. by destruct config. Qed.

Lemma aggregate_step_falsy st severity d :
  truthy (default PNone (d !! "selector")) = false ->
  aggregate_step st (severity, PDict d) = ([], Ok st).
Proof.
  intros H. unfold aggregate_step, dict_get. msimpl. by rewrite H.
Qed.

Lemma aggregate_step_seen st severity d k :
  truthy (default PNone (d !! "selector")) = true ->
  hash_key (default PNone (d !! "selector")) = Ok k ->
  k ∈ seen_selectors st ->
  aggregate_step st (severity, PDict d) = ([], Ok st).
Proof.
  intros H Hk Hin. unfold aggregate_step, dict_get. msimpl.
  rewrite H, Hk. msimpl. by rewrite bool_decide_eq_true_2.
Qed.

Lemma aggregate_step_fresh st severity d k :
  truthy (default PNone (d !! "selector")) = true ->
  hash_key (default PNone (d !! "selector")) = Ok k ->
  k ∉ seen_selectors st ->
  aggregate_step st (severity, PDict d) = ([], Ok (appended st severity (PDict d) k)).
Proof.
  intros H Hk Hin. unfold aggregate_step, dict_get. msimpl.
  rewrite H, Hk. msimpl. by rewrite bool_decide_eq_false_2.
Qed.

Lemma aggregate_step_unhashable st severity d :
  truthy (default PNone (d !! "selector")) = true ->
  hash_key (default PNone (d !! "selector")) = Raise TypeError ->
  aggregate_step st (severity, PDict d) = ([], Raise TypeError).
Proof.
  intros H Hk. unfold aggregate_step, dict_get. msimpl. by rewrite H, Hk.
Qed.

(** Whenever the loop body returns, it wrote nothing and either left the
    state alone or appended the config under a fresh key. *)
Lemma aggregate_step_returns st severity config w st' :
  aggregate_step st (severity, config) = (w, Ok st') ->
  w = [] ∧ (st' = st ∨ (∃ k, (k ∉ seen_selectors st) ∧ st' = appended st severity config k)).
Proof.
  destruct config as [| | | | |d]; try discriminate.
  destruct (truthy (default PNone (d !! "selector"))) eqn:Ht.
  - destruct (hash_key (default PNone (d !! "selector"))) as [k|e] eqn:Hk.
    + destruct (decide (k ∈ seen_selectors st)) as [Hin|Hin].
      * rewrite (aggregate_step_seen _ _ _ k) by done. intros [= <- <-]. auto.
      * rewrite (aggregate_step_fresh _ _ _ k) by done. intros [= <- <-]. eauto.
    + assert (e = TypeError) as ->.
      { destruct (default PNone (d !! "selector")); simpl in Hk; congruence. }
      by rewrite aggregate_step_unhashable.
  - rewrite aggregate_step_falsy by done. intros [= <- <-]. auto.
Qed.

(** ** Loops *)

Lemma foldlM_cons_ok {A B} (step : A -> B -> M A) acc x xs a :
  step acc x = ([], Ok a) -> foldlM step acc (x :: xs) = foldlM step a xs.
Proof. intros H. simpl. rewrite H. msimpl. by destruct (foldlM step a xs). Qed.

Lemma foldlM_cons_raise {A B} (step : A -> B -> M A) acc x xs w e :
  step acc x = (w, Raise e) -> foldlM step acc (x :: xs) = (w, Raise e).
Proof. intros H. simpl. by rewrite H. Qed.

Lemma foldlM_cons_inv {A B} (step : A -> B -> M A) acc x xs w r :
  foldlM step acc (x :: xs) = (w, Ok r) ->
  ∃ w1 a w2, step acc x = (w1, Ok a) ∧ foldlM step a xs = (w2, Ok r) ∧ w = w1 ++ w2.
Proof.
  simpl. msimpl. destruct (step acc x) as [w1 [a|e]]; [|done].
  destruct (foldlM step a xs) as [w2 r'] eqn:E. intros [= <- ->]. eauto 6.
Qed.

(** ** The aggregation loop on arbitrary input *)

(** Whenever the loop returns: it wrote nothing, the sequence only grew,
    and the severity changed only by an appended [error] pair. *)
Lemma aggregate_loop_returns l : ∀ st w st',
  foldlM aggregate_step st l = (w, Ok st') ->
  w = [] ∧
  ∃ new, combined_syntax_configs st' = combined_syntax_configs st ++ new ∧
    (highest_severity st' = highest_severity st ∨
     (highest_severity st' = "error" ∧ new ≠ [] ∧
      ∃ p, p ∈ l ∧ eq_str p.1 "error" = true)).
Proof.
  induction l as [|[sev c] l IH]; intros st w st'.
  - intros [= <- <-]. split; [done|]. exists []. by rewrite app_nil_r; auto.
  - intros (w1 & a & w2 & Hs & Hl & ->)%foldlM_cons_inv.
    apply aggregate_step_returns in Hs as [-> Hs].
    apply IH in Hl as [-> (new & Hc & Hh)]. split; [done|].
    destruct Hs as [->|(k & Hk & ->)].
    + exists new. split; [done|]. destruct Hh as [Hh|(Hh & Hn & p & Hp & He)]; [by left|].
      right. repeat split; [done..|]. exists p. by rewrite elem_of_cons; auto.
    + exists (c :: new). simpl in Hc. rewrite <- app_assoc in Hc. split; [done|].
      simpl in Hh. destruct Hh as [Hh|(Hh & Hn & p & Hp & He)].
      * destruct (eq_str sev "error") eqn:Esev; [|by left].
        right. repeat split; [done..|]. exists (sev, c). by rewrite elem_of_cons; auto.
      * right. repeat split; [done..|]. exists p. by rewrite elem_of_cons; auto.
Qed.

(** ** The aggregation loop on PatternConfigs *)

Lemma is_pattern_config_inv c :
  is_pattern_config c = true ->
  ∃ d s, c = PDict d ∧ d !! "selector" = Some (PStr s) ∧ selector_of c = Some s.
Proof.
  destruct c as [| | | | |d]; try done. simpl.
  destruct (d !! "selector") as [[| | |s| |]|] eqn:E; try done. eauto.
Qed.

Lemma aggregate_loop_pattern_configs l : ∀ st,
  Forall (fun p => is_pattern_config p.2 = true) l ->
  ∃ st', foldlM aggregate_step st l = ([], Ok st') ∧
    combined_syntax_configs st' =
      combined_syntax_configs st ++
      filter (unseen (seen_selectors st)) (first_seen (filter nonempty_selector l.*2)).
Proof.
  induction l as [|[sev c] l IH]; intros st Hwf.
  - exists st. by rewrite app_nil_r.
  - apply Forall_cons in Hwf as [Hc Hwf]. simpl in Hc.
    destruct (is_pattern_config_inv c Hc) as (d & s & -> & Hd & Hs).
    assert (Hne : nonempty_selector (PDict d) = negb (String.eqb s EmptyString)).
    { unfold nonempty_selector. by rewrite Hs. }
    rewrite fmap_cons. simpl snd. rewrite filter_cons.
    destruct (String.eqb s EmptyString) eqn:Es; simpl in Hne.
    + rewrite decide_False by (rewrite Hne; exact id).
      destruct (IH st Hwf) as (st' & Hl & Hcomb). exists st'. split; [|done].
      rewrite (foldlM_cons_ok _ _ _ _ st); [done|].
      apply aggregate_step_falsy. rewrite Hd. simpl. by rewrite Es.
    + rewrite decide_True by (rewrite Hne; exact I). cbn [first_seen]. rewrite filter_cons.
      destruct (decide (KStr s ∈ seen_selectors st)) as [Hin|Hin].
      * destruct (IH st Hwf) as (st' & Hl & Hcomb). exists st'. split.
        { rewrite (foldlM_cons_ok _ _ _ _ st); [done|].
          apply (aggregate_step_seen _ _ _ (KStr s)); rewrite ?Hd; simpl; by rewrite ?Es. }
        rewrite decide_False by (intros H; by apply (H s)).
        rewrite Hcomb, list_filter_filter. f_equal. apply list_filter_iff.
        intros c'. split; [|by intros []]. intros Hu. split; [done|].
        rewrite Hs. intros Hc'. by apply (Hu s).
      * destruct (IH (appended st sev (PDict d) (KStr s)) Hwf) as (st' & Hl & Hcomb).
        exists st'. split.
        { rewrite (foldlM_cons_ok _ _ _ _ (appended st sev (PDict d) (KStr s))); [done|].
          apply aggregate_step_fresh; rewrite ?Hd; simpl; by rewrite ?Es. }
        rewrite decide_True by (unfold unseen; rewrite Hs; by intros ? [= <-]).
        rewrite Hcomb. simpl. rewrite <- app_assoc. simpl. do 2 f_equal.
        rewrite list_filter_filter. apply list_filter_iff.
        intros c'. unfold unseen. rewrite Hd. split.
        -- intros Hu. split.
           ++ intros s' Hs'. specialize (Hu s' Hs'). set_solver.
           ++ intros Hc'. specialize (Hu s Hc'). set_solver.
        -- intros [Hu Hdiff] s' Hs'. rewrite elem_of_union, elem_of_singleton.
           intros [[= ->]|Hin']; [by apply Hdiff | by apply (Hu s')].
Qed.

(** ** First-seen deduplication *)

Lemma first_seen_sublist l : sublist (first_seen l) l.
Proof.
  induction l as [|c l IH]; simpl; [done|].
  apply sublist_skip. etrans; [apply sublist_filter|done].
Qed.

Lemma first_seen_elem_of l c : c ∈ first_seen l -> c ∈ l.
Proof. apply (sublist_subseteq _ _ (first_seen_sublist l)). Qed.

Lemma first_seen_NoDup l : NoDup (selector_of <$> first_seen l).
Proof.
  induction l as [|c l IH]; simpl; [constructor|].
  constructor.
  - intros (c' & Heq & [Hne _]%list_elem_of_filter)%list_elem_of_fmap. by apply Hne.
  - eapply sublist_NoDup; [exact IH|]. apply fmap_sublist, sublist_filter.
Qed.

Lemma first_seen_covers l c :
  c ∈ l -> ∃ c', c' ∈ first_seen l ∧ selector_of c' = selector_of c.
Proof.
  induction l as [|a l IH]; [by intros ?%elem_of_nil|].
  intros [->|Hin]%elem_of_cons; simpl.
  - exists a. by rewrite elem_of_cons; auto.
  - destruct (IH Hin) as (c' & Hc' & Heq).
    destruct (decide (selector_of c' = selector_of a)) as [Ha|Ha].
    + exists a. rewrite elem_of_cons. split; [by left | congruence].
    + exists c'. rewrite elem_of_cons, list_elem_of_filter. auto.
Qed.

(** Each kept config is the first one of the input with its selector. *)
Lemma first_seen_first l c :
  c ∈ first_seen l ->
  ∃ i, list_find (fun c' => selector_of c' = selector_of c) l = Some (i, c).
Proof.
  induction l as [|a l IH]; [by intros ?%elem_of_nil|].
  simpl. intros [->|[Hne Hin]%list_elem_of_filter]%elem_of_cons.
  - exists 0. by rewrite decide_True.
  - destruct (IH Hin) as [i Hi]. exists (S i).
    rewrite decide_False by congruence. by rewrite Hi.
Qed.

Lemma first_seen_NoDup_id l : NoDup (selector_of <$> l) -> first_seen l = l.
Proof.
  induction l as [|c l IH]; [done|].
  rewrite fmap_cons. intros [Hnotin Hnd]%NoDup_cons. simpl. f_equal.
  rewrite (IH Hnd). clear IH Hnd.
  induction l as [|a l IHl]; [done|].
  rewrite fmap_cons, not_elem_of_cons in Hnotin. destruct Hnotin as [Hne Hnotin].
  rewrite filter_cons_True by congruence. f_equal. by apply IHl.
Qed.

Lemma filter_Forall_id {A} (P : A -> Prop) `{∀ x, Decision (P x)} (l : list A) :
  Forall P l -> filter P l = l.
Proof.
  induction 1 as [|x l Hx _ IH]; [done|].
  rewrite filter_cons_True by done. by rewrite IH.
Qed.

Lemma list_find_filter_implies {A} (P Q : A -> Prop)
    `{∀ x, Decision (P x)} `{∀ x, Decision (Q x)} (l : list A) i x :
  (∀ y, P y -> Q y) ->
  list_find P (filter Q l) = Some (i, x) -> ∃ j, list_find P l = Some (j, x).
Proof.
  intros HPQ. revert i. induction l as [|a l IH]; intros i; [done|].
  rewrite filter_cons. simpl. destruct (decide (P a)) as [Ha|Ha].
  - rewrite decide_True by auto. simpl. rewrite decide_True by done.
    intros [= <- <-]. eauto.
  - destruct (decide (Q a)).
    + simpl. rewrite decide_False by done.
      destruct (list_find P (filter Q l)) as [[j y]|] eqn:E; [|done].
      intros [= <- <-]. destruct (IH j eq_refl) as [k ->]. simpl. eauto.
    + intros [k ->]%IH. simpl. eauto.
Qed.

(** ** The aggregator's result *)

Lemma patterns_final_result st :
  patterns (final_result st).1.1 = combined_syntax_configs st.
Proof. unfold final_result. by destruct (combined_syntax_configs st). Qed.

Lemma severity_final_result st : (final_result st).1.2 = highest_severity st.
Proof. unfold final_result. by destruct (combined_syntax_configs st). Qed.

Lemma count_final_result st :
  (final_result st).2 = length (combined_syntax_configs st).
Proof. unfold final_result. by destruct (combined_syntax_configs st). Qed.

Lemma final_result_ext st1 st2 :
  combined_syntax_configs st1 = combined_syntax_configs st2 ->
  highest_severity st1 = highest_severity st2 ->
  final_result st1 = final_result st2.
Proof. unfold final_result. by intros -> ->. Qed.

Lemma aggregate_of_loop l w st :
  aggregate_loop l = (w, Ok st) ->
  aggregate_eslint_configs l = (Aggregating (length l) :: w, Ok (final_result st)).
Proof.
  intros H. unfold aggregate_eslint_configs. msimpl. rewrite H. simpl.
  by rewrite app_nil_r.
Qed.

Lemma aggregate_of_loop_raise l w e :
  aggregate_loop l = (w, Raise e) ->
  aggregate_eslint_configs l = (Aggregating (length l) :: w, Raise e).
Proof. intros H. unfold aggregate_eslint_configs. msimpl. by rewrite H. Qed.

Lemma aggregate_inv l w r :
  aggregate_eslint_configs l = (w, Ok r) ->
  ∃ st, aggregate_loop l = ([], Ok st) ∧ r = final_result st ∧ w = [Aggregating (length l)].
Proof.
  destruct (aggregate_loop l) as [w' [st|e]] eqn:E.
  - rewrite (aggregate_of_loop _ _ _ E). intros [= <- <-].
    apply aggregate_loop_returns in E as E'. destruct E' as [-> _]. eauto.
  - by rewrite (aggregate_of_loop_raise _ _ _ E).
Qed.

(** The severity only moves up, and an [error] result has an [error]
    pair of the input behind it. *)
Lemma aggregate_severity_sound l w r :
  aggregate_eslint_configs l = (w, Ok r) ->
  r.1.2 = "warn" ∨ (r.1.2 = "error" ∧ ∃ p, p ∈ l ∧ eq_str p.1 "error" = true).
Proof.
  intros (st & Hl & -> & _)%aggregate_inv. rewrite severity_final_result.
  apply aggregate_loop_returns in Hl as [_ (new & _ & [H|(H & _ & Hp)])]; auto.
Qed.

Lemma aggregate_loop_monotone l st w st' :
  foldlM aggregate_step st l = (w, Ok st') ->
  highest_severity st = "error" -> highest_severity st' = "error".
Proof.
  intros [_ (new & _ & [H|(H & _)])]%aggregate_loop_returns; congruence.
Qed.

(** The warning branch of the loop is never reached: a config that is
    not a dict stops the loop at [config.get]. *)
Lemma aggregate_loop_not_dict l1 severity config l2 st :
  Forall (fun p => is_pattern_config p.2 = true) l1 ->
  is_dict config = false ->
  foldlM aggregate_step st (l1 ++ (severity, config) :: l2) = ([], Raise AttributeError).
Proof.
  intros Hwf Hc. destruct (aggregate_loop_pattern_configs l1 st Hwf) as (st' & Hl & _).
  rewrite (foldlM_app _ _ _ _ _ Hl).
  apply foldlM_cons_raise. by apply aggregate_step_not_dict.
Qed.

(** ** The aggregator: deduplication *)

(** On PatternConfigs the aggregator returns the first-seen
    deduplication of the configs that have a non-empty selector. *)
Lemma aggregate_pattern_configs (l : list (pyval * pyval)) :
  Forall (fun p => is_pattern_config p.2 = true) l ->
  ∃ rules severity,
    aggregate_eslint_configs l =
      ([Aggregating (length l)], Ok (rules, severity, length (patterns rules))) ∧
    patterns rules = first_seen (filter nonempty_selector l.*2).
Proof.
  intros Hwf. destruct (aggregate_loop_pattern_configs l agg_init Hwf) as (st & Hl & Hc).
  simpl in Hc.
  assert (Hall : filter (unseen ∅) (first_seen (filter nonempty_selector l.*2))
                 = first_seen (filter nonempty_selector l.*2)).
  { apply filter_Forall_id, Forall_forall. intros c _ s _. set_solver. }
  rewrite Hall in Hc. clear Hall.
  exists (final_result st).1.1, (final_result st).1.2.
  rewrite patterns_final_result. split; [|done].
  rewrite (aggregate_of_loop _ _ _ Hl). do 2 f_equal.
  rewrite <- count_final_result. by destruct (final_result st) as [[??]?].
Qed.

(** C4, for patterns that are not empty: on PatternConfigs the
    aggregator returns, and its pattern sequence is the first-seen
    deduplication by selector of the configs with a non-empty selector: it
    is a subsequence of the input in the input's order, no selector occurs
    twice, each kept config is the first config of the input with its
    selector (so its message wins), every non-empty selector of the input
    is kept, and the returned count is the length of the sequence. *)
Theorem aggregate_dedup_first_seen (l : list (pyval * pyval)) :
  Forall (fun p => is_pattern_config p.2 = true) l ->
  ∃ rules severity,
    aggregate_eslint_configs l =
      ([Aggregating (length l)], Ok (rules, severity, length (patterns rules))) ∧
    patterns rules = first_seen (filter nonempty_selector l.*2) ∧
    sublist (patterns rules) l.*2 ∧
    NoDup (selector_of <$> patterns rules) ∧
    (∀ c, c ∈ patterns rules ->
       ∃ i, list_find (fun c' => selector_of c' = selector_of c) l.*2 = Some (i, c)) ∧
    (∀ p, p ∈ l -> nonempty_selector p.2 = true ->
       ∃ c, c ∈ patterns rules ∧ selector_of c = selector_of p.2).
Proof.
  intros Hwf. destruct (aggregate_pattern_configs l Hwf) as (rules & sev & Hagg & Hp).
  exists rules, sev. rewrite Hp. split; [by rewrite <- Hp|].
  split; [done|split; [|split; [|split]]].
  - etrans; [apply first_seen_sublist | apply sublist_filter].
  - apply first_seen_NoDup.
  - intros c Hin. destruct (first_seen_first _ _ Hin) as [i Hi].
    apply first_seen_elem_of, list_elem_of_filter in Hin as [Hne _].
    eapply (list_find_filter_implies _ (fun c' => nonempty_selector c')); [|exact Hi].
    intros y Hy. unfold nonempty_selector in *. by rewrite Hy.
  - intros p Hin Hne. apply first_seen_covers, list_elem_of_filter. split.
    + by rewrite Hne.
    + apply list_elem_of_fmap. eauto.
Qed.

(** The theorem at a three-element input with a repeated selector. *)
Lemma aggregate_dedup_first_seen_witness :
  Forall (fun p => is_pattern_config p.2 = true)
    [(PStr "warn", pattern_config "a" "first");
     (PStr "warn", pattern_config "b" "other");
     (PStr "error", pattern_config "a" "second")] ∧
  ∃ rules severity,
    aggregate_eslint_configs
      [(PStr "warn", pattern_config "a" "first");
       (PStr "warn", pattern_config "b" "other");
       (PStr "error", pattern_config "a" "second")] =
      ([Aggregating 3], Ok (rules, severity, length (patterns rules))) ∧
    patterns rules = [pattern_config "a" "first"; pattern_config "b" "other"].
Proof.
  assert (Hwf : Forall (fun p => is_pattern_config p.2 = true)
    [(PStr "warn", pattern_config "a" "first");
     (PStr "warn", pattern_config "b" "other");
     (PStr "error", pattern_config "a" "second")]) by repeat constructor.
  split; [exact Hwf|].
  destruct (aggregate_dedup_first_seen _ Hwf) as (rules & sev & H1 & H2 & _).
  exists rules, sev. split; [exact H1|]. rewrite H2. reflexivity.
Defined.

(** C4 as stated fails at an empty selector: the config is a
    PatternConfig with a selector not seen before, and it is not
    appended. *)
Lemma aggregate_drops_empty_selector :
  is_pattern_config (pattern_config EmptyString "m") = true ∧
  aggregate_eslint_configs [(PStr "warn", pattern_config EmptyString "m")] =
    ([Aggregating 1], Ok (∅, "warn", 0)) ∧
  ¬ (∃ c, c ∈ patterns (∅ : gmap string pyval) ∧
          selector_of c = selector_of (pattern_config EmptyString "m")).
Proof.
  split; [reflexivity|]. split; [reflexivity|].
  intros (c & Hc & _). by apply elem_of_nil in Hc.
Qed.

(** ** The aggregator: severity *)

(** C1 at the failing input: an [error] pair whose selector was already
    appended by a [warn] pair does not raise the overall severity, which
    stays [warn] although the input has an [error] pair. *)
Theorem aggregate_severity_misses_duplicate_error :
  aggregate_eslint_configs
    [(PStr "warn", pattern_config "a" "first");
     (PStr "error", pattern_config "a" "second")] =
  ([Aggregating 2],
   Ok ({[ "no-restricted-syntax" := PList [PStr "warn"; pattern_config "a" "first"] ]},
       "warn", 1)) ∧
  Exists (fun p => eq_str p.1 "error" = true)
    [(PStr "warn", pattern_config "a" "first");
     (PStr "error", pattern_config "a" "second")].
Proof. split; [reflexivity|]. apply Exists_cons_tl, Exists_cons_hd. reflexivity. Qed.

(** ** The aggregator: configs that are not dicts *)

Lemma aggregate_step_silent st p : written (aggregate_step st p) = [].
Proof.
  destruct p as [sev [| | | | |d]]; try done.
  destruct (truthy (default PNone (d !! "selector"))) eqn:Ht;
    [|by rewrite aggregate_step_falsy].
  destruct (hash_key (default PNone (d !! "selector"))) as [k|e] eqn:Hk.
  - destruct (decide (k ∈ seen_selectors st)).
    + by rewrite (aggregate_step_seen _ _ _ k).
    + by rewrite (aggregate_step_fresh _ _ _ k).
  - assert (e = TypeError) as ->.
    { destruct (default PNone (d !! "selector")); simpl in Hk; congruence. }
    by rewrite aggregate_step_unhashable.
Qed.

Lemma foldlM_silent {A B} (step : A -> B -> M A) :
  (∀ a x, written (step a x) = []) ->
  ∀ xs a, written (foldlM step a xs) = [].
Proof.
  intros Hstep. induction xs as [|x xs IH]; intros a; [done|].
  simpl. apply bind_silent; auto.
Qed.

(** C2 at the failing input: a config that is not a dict ([None]) is not
    skipped with a warning; [config.get] raises [AttributeError] and the
    aggregator raises with it, before the [isinstance] test is reached.
    On no input at all is the warning written: the opening line is the
    only message of the aggregator. *)
Theorem aggregate_raises_on_non_dict :
  aggregate_eslint_configs [(PStr "warn", PNone)] =
    ([Aggregating 1], Raise AttributeError) ∧
  ∀ l, written (aggregate_eslint_configs l) = [Aggregating (length l)].
Proof.
  split; [reflexivity|]. intros l.
  pose proof (foldlM_silent aggregate_step aggregate_step_silent l agg_init) as Hs.
  fold (aggregate_loop l) in Hs.
  destruct (aggregate_loop l) as [w [st|e]] eqn:E; simpl in Hs; subst w.
  - by rewrite (aggregate_of_loop _ _ _ E).
  - by rewrite (aggregate_of_loop_raise _ _ _ E).
Qed.

(** ** The aggregator: idempotence *)

Lemma is_pattern_config_nonempty_step st severity c :
  is_pattern_config c = true -> nonempty_selector c = true ->
  unseen (seen_selectors st) c ->
  ∃ k, aggregate_step st (severity, c) = ([], Ok (appended st severity c k)).
Proof.
  intros (d & s & -> & Hd & Hs)%is_pattern_config_inv Hne Hun.
  unfold nonempty_selector in Hne. rewrite Hs in Hne.
  exists (KStr s). apply aggregate_step_fresh; rewrite ?Hd; simpl; [done..|].
  by apply Hun.
Qed.

Lemma rewrap_configs r : (rewrap r).*2 = patterns r.1.1.
Proof.
  unfold rewrap. induction (patterns r.1.1) as [|c cs IH]; [done|].
  rewrite !fmap_cons. simpl. by rewrite IH.
Qed.

(** C9: on PatternConfigs the aggregator returns, and applied to its own
    output, each kept config paired with the overall severity, it returns
    the same result: the same pattern sequence, overall severity and
    count. *)
Theorem aggregate_idempotent (l : list (pyval * pyval)) :
  Forall (fun p => is_pattern_config p.2 = true) l ->
  ∃ r,
    aggregate_eslint_configs l = ([Aggregating (length l)], Ok r) ∧
    ∃ r',
      aggregate_eslint_configs (rewrap r) = ([Aggregating (length (rewrap r))], Ok r') ∧
      patterns r'.1.1 = patterns r.1.1 ∧ r'.1.2 = r.1.2 ∧ r' = r.
Proof.
  intros Hwf.
  destruct (aggregate_pattern_configs l Hwf) as (rules & sev & Hagg & Hpat).
  assert (Hsub : sublist (patterns rules) l.*2).
  { rewrite Hpat. etrans; [apply first_seen_sublist | apply sublist_filter]. }
  assert (Hnd : NoDup (selector_of <$> patterns rules)).
  { rewrite Hpat. apply first_seen_NoDup. }
  exists (rules, sev, length (patterns rules)). split; [done|].
  apply aggregate_inv in Hagg as Hst. destruct Hst as (st & Hl & Hr & _).
  assert (Hcomb : combined_syntax_configs st = patterns rules).
  { by rewrite <- patterns_final_result, <- Hr. }
  assert (Hsev : highest_severity st = sev).
  { by rewrite <- severity_final_result, <- Hr. }
  (* the output is made of PatternConfigs with non-empty selectors *)
  assert (Hwf' : Forall (fun p => is_pattern_config p.2 = true)
                   (rewrap (rules, sev, length (patterns rules)))).
  { unfold rewrap. simpl. apply Forall_fmap, Forall_forall. intros c Hc. simpl.
    rewrite Forall_forall in Hwf.
    apply (sublist_subseteq _ _ Hsub), list_elem_of_fmap in Hc as (p & -> & Hp). auto. }
  destruct (aggregate_pattern_configs _ Hwf') as (rules' & sev' & Hagg' & Hpat').
  assert (Hsame : patterns rules' = patterns rules).
  { rewrite Hpat', rewrap_configs. simpl.
    rewrite filter_Forall_id; [by apply first_seen_NoDup_id|].
    apply Forall_forall. intros c Hc. rewrite Hpat in Hc.
    by apply first_seen_elem_of, list_elem_of_filter in Hc as [Hne _]. }
  exists (rules', sev', length (patterns rules')). split; [done|].
  apply aggregate_inv in Hagg' as Hst'. destruct Hst' as (st' & Hl' & Hr' & _).
  assert (Hcomb' : combined_syntax_configs st' = patterns rules').
  { by rewrite <- patterns_final_result, <- Hr'. }
  assert (Hsev' : highest_severity st' = sev').
  { by rewrite <- severity_final_result, <- Hr'. }
  assert (Heq : sev' = sev).
  { rewrite <- Hsev, <- Hsev'.
    apply aggregate_loop_returns in Hl as HL.
    destruct HL as [_ (new & Hnew & Hh)]. simpl in Hnew, Hh.
    destruct Hh as [Hh|(Hh & Hne & _)].
    - (* the first run stayed at warn: the second sees no error pair *)
      apply aggregate_loop_returns in Hl' as [_ (new' & _ & [Hh'|(Hh' & _ & p & Hp & He)])].
      + simpl in Hh'. congruence.
      + unfold rewrap in Hp. simpl in Hp. apply list_elem_of_fmap in Hp as (c & -> & _).
        simpl in He. rewrite <- Hsev, Hh in He. discriminate.
    - (* the first run reached error: the second appends an error pair first *)
      rewrite Hh. unfold aggregate_loop, rewrap in Hl'. simpl in Hl'.
      rewrite <- Hcomb, Hnew in Hl'. destruct new as [|c new]; [congruence|].
      rewrite <- Hsev, Hh, fmap_cons in Hl'.
      apply foldlM_cons_inv in Hl' as (w1 & a & w2 & Hstep & Hrest & _).
      destruct (is_pattern_config_nonempty_step agg_init (PStr "error") c) as [k Hk].
      + rewrite Forall_forall in Hwf'. apply (Hwf' (PStr sev, c)).
        unfold rewrap. simpl. rewrite <- Hcomb, Hnew. simpl. apply elem_of_cons. by left.
      + assert (c ∈ first_seen (filter nonempty_selector l.*2)) as Hc.
        { rewrite <- Hpat, <- Hcomb, Hnew. apply elem_of_cons. by left. }
        by apply first_seen_elem_of, list_elem_of_filter in Hc as [Hc%Is_true_true _].
      + intros s _. set_solver.
      + rewrite Hk in Hstep. injection Hstep as <- <-.
        by apply aggregate_loop_monotone in Hrest. }
  assert (Hfin : final_result st' = final_result st).
  { apply final_result_ext; congruence. }
  rewrite <- Hr, <- Hr' in Hfin. by rewrite Hfin.
Qed.

(** The theorem at an input with a repeated selector and an [error]
    pair. *)
Lemma aggregate_idempotent_witness :
  Forall (fun p => is_pattern_config p.2 = true)
    [(PStr "error", pattern_config "a" "first");
     (PStr "warn", pattern_config "a" "second")] ∧
  ∃ r,
    aggregate_eslint_configs
      [(PStr "error", pattern_config "a" "first");
       (PStr "warn", pattern_config "a" "second")] = ([Aggregating 2], Ok r) ∧
    ∃ r',
      aggregate_eslint_configs (rewrap r) = ([Aggregating (length (rewrap r))], Ok r') ∧
      patterns r'.1.1 = patterns r.1.1 ∧ r'.1.2 = r.1.2 ∧ r' = r.
Proof.
  assert (Hwf : Forall (fun p => is_pattern_config p.2 = true)
    [(PStr "error", pattern_config "a" "first");
     (PStr "warn", pattern_config "a" "second")]) by repeat constructor.
  split; [exact Hwf|]. exact (aggregate_idempotent _ Hwf).
Defined.

(** ** The aggregator: nothing to emit *)

Lemma aggregate_loop_contributes_nothing l : ∀ st,
  Forall (fun p => contributes_nothing p.2 = true) l ->
  foldlM aggregate_step st l = ([], Ok st).
Proof.
  induction l as [|[sev c] l IH]; intros st; [done|].
  intros [Hc Hl]%Forall_cons. simpl in Hc.
  destruct c as [| | | | |d]; try discriminate.
  rewrite (foldlM_cons_ok _ _ _ _ st); [by apply IH|].
  apply aggregate_step_falsy. by apply negb_true_iff.
Qed.

(** X21: whenever the loop returns with nothing appended, as it does on
    the empty input and on any input whose configs are dicts without a
    non-empty selector, the aggregator returns the empty rules object, in
    which [no-restricted-syntax] has no entry, with severity [warn] and
    count 0. *)
Theorem aggregate_empty_sequence (l : list (pyval * pyval)) :
  Forall (fun p => contributes_nothing p.2 = true) l ∨
  (∃ w st, aggregate_loop l = (w, Ok st) ∧ combined_syntax_configs st = []) ->
  ∃ rules,
    aggregate_eslint_configs l = ([Aggregating (length l)], Ok (rules, "warn", 0)) ∧
    rules = ∅ ∧ rules !! "no-restricted-syntax" = None ∧ patterns rules = [].
Proof.
  intros H.
  assert (∃ st, aggregate_loop l = ([], Ok st) ∧ combined_syntax_configs st = []
                ∧ highest_severity st = "warn") as (st & Hl & Hc & Hh).
  { destruct H as [H|(w & st & Hl & Hc)].
    - exists agg_init. split; [|done]. by apply aggregate_loop_contributes_nothing.
    - apply aggregate_loop_returns in Hl as HL.
      destruct HL as [-> (new & Hnew & Hh)]. simpl in Hnew, Hh.
      exists st. repeat split; [done..|].
      destruct Hh as [Hh|(_ & Hne & _)]; [done|]. congruence. }
  exists ∅. rewrite (aggregate_of_loop _ _ _ Hl). unfold final_result.
  by rewrite Hc, Hh.
Qed.

(** The theorem at the empty input and at a config with an empty
    selector. *)
Lemma aggregate_empty_sequence_witness :
  (∃ rules,
     aggregate_eslint_configs [] = ([Aggregating 0], Ok (rules, "warn", 0)) ∧
     rules = ∅ ∧ rules !! "no-restricted-syntax" = None ∧ patterns rules = []) ∧
  (∃ rules,
     aggregate_eslint_configs [(PStr "error", pattern_config EmptyString "m")] =
       ([Aggregating 1], Ok (rules, "warn", 0)) ∧
     rules = ∅ ∧ rules !! "no-restricted-syntax" = None ∧ patterns rules = []).
Proof.
  split.
  - apply (aggregate_empty_sequence []). left. constructor.
  - apply (aggregate_empty_sequence [(PStr "error", pattern_config EmptyString "m")]).
    right. exists [], agg_init. split; reflexivity.
Defined.

(** C10 at the failing input: no element of the input contributes a dict
    config with a non-empty selector, for its only config is [None], not
    a dict; yet the aggregator does not return the empty rules object
    with [warn] and 0: it raises [AttributeError] at [config.get], before
    the test that would skip the element. *)
Theorem aggregate_empty_sequence_raises :
  Forall (fun p => is_dict p.2 = false ∨ contributes_nothing p.2 = true)
    [(PStr "warn", PNone)] ∧
  aggregate_eslint_configs [(PStr "warn", PNone)] =
    ([Aggregating 1], Raise AttributeError) ∧
  outcome (aggregate_eslint_configs [(PStr "warn", PNone)]) ≠ Ok (∅, "warn", 0).
Proof.
  split; [|split].
  - constructor; [by left|constructor].
  - reflexivity.
  - discriminate.
Qed.

(** ** Rendering *)

Lemma KEYWORD_TEMPLATES_fallback context :
  context ∉ recognized_tags ->
  default Unknown_template (KEYWORD_TEMPLATES !! context) = Unknown_template.
Proof.
  unfold recognized_tags. rewrite !not_elem_of_cons. intros (?&?&?&?&?&?&_).
  unfold KEYWORD_TEMPLATES. rewrite !lookup_insert_ne by done.
  destruct (decide (context = "Unknown")) as [->|Hne].
  - by rewrite lookup_singleton_eq.
  - by rewrite lookup_singleton_ne.
Qed.

Lemma generate_on_strings (registry : gmap string template) (unknown : template)
    term context rule_text :
  registry !! "Unknown" = Some unknown ->
  generate_eslint_config_object_with registry (PStr term) (PStr context) rule_text =
  try_except
    (default unknown (registry !! context) (selector_escape term) (js_escape rule_text))
    (fun e => tell (TemplateError (PStr term) (PStr context) rule_text e);; mret PNone).
Proof.
  intros Hu. unfold generate_eslint_config_object_with, registry_item, registry_get.
  unfold as_str. msimpl. rewrite Hu. msimpl.
  by destruct (default unknown (registry !! context) _ _) as [w [a|e]]; rewrite ?app_nil_r.
Qed.

(** Every template of the registry returns a config and writes nothing. *)
Lemma KEYWORD_TEMPLATES_total context kw rule :
  ∃ selector message,
    default Unknown_template (KEYWORD_TEMPLATES !! context) kw rule =
    ([], Ok (pattern_config selector message)).
Proof.
  destruct (decide (context ∈ recognized_tags)) as [Hin|Hnotin].
  - unfold recognized_tags in Hin. rewrite !elem_of_cons in Hin.
    destruct Hin as [->|[->|[->|[->|[->|[->|[]%elem_of_nil]]]]]]; by eexists _, _.
  - rewrite KEYWORD_TEMPLATES_fallback by done. by eexists _, _.
Qed.

(** C8: for string inputs, a context outside the six recognized tags is
    rendered by the [Unknown] template, applied to the selector-escaped
    term and the message-escaped rule text; rendering always returns a
    config and never raises; and over any registry, a template that raises
    is caught: a message is written and [None] is returned. *)
Theorem render_fallback_never_raises (term context rule_text : string) :
  (context ∉ recognized_tags ->
   generate_eslint_config_object (PStr term) (PStr context) rule_text =
   Unknown_template (selector_escape term) (js_escape rule_text)) ∧
  (∃ selector message,
     generate_eslint_config_object (PStr term) (PStr context) rule_text =
     ([], Ok (pattern_config selector message))) ∧
  (∀ (registry : gmap string template) (unknown : template) w e,
     registry !! "Unknown" = Some unknown ->
     default unknown (registry !! context) (selector_escape term) (js_escape rule_text)
       = (w, Raise e) ->
     generate_eslint_config_object_with registry (PStr term) (PStr context) rule_text =
     (w ++ [TemplateError (PStr term) (PStr context) rule_text e], Ok PNone)).
Proof.
  split; [|split].
  - intros Hctx. unfold generate_eslint_config_object.
    rewrite (generate_on_strings _ Unknown_template) by done.
    by rewrite KEYWORD_TEMPLATES_fallback.
  - unfold generate_eslint_config_object.
    rewrite (generate_on_strings _ Unknown_template) by done.
    destruct (KEYWORD_TEMPLATES_total context (selector_escape term) (js_escape rule_text))
      as (sel & msg & ->). by exists sel, msg.
  - intros registry unknown w e Hu Hraise.
    rewrite (generate_on_strings _ unknown) by done. by rewrite Hraise.
Qed.

(** A registry whose [Keyword] template raises. *)
Lemma render_fallback_never_raises_witness :
("Async" ∉ recognized_tags) ∧
  generate_eslint_config_object (PStr "x") (PStr "Async") "r" =
    Unknown_template (selector_escape "x") (js_escape "r") ∧
  generate_eslint_config_object_with
    (<["Keyword" := fun _ _ => raise KeyError]> KEYWORD_TEMPLATES)
    (PStr "x") (PStr "Keyword") "r" =
    ([TemplateError (PStr "x") (PStr "Keyword") "r" KeyError], Ok PNone).
Proof.
  pose proof (render_fallback_never_raises "x" "Async" "r") as (H1 & _ & _).
  pose proof (render_fallback_never_raises "x" "Keyword" "r") as (_ & _ & H3).
  assert (Hn : "Async" ∉ recognized_tags).
  { unfold recognized_tags. rewrite !not_elem_of_cons. repeat split; try done.
    apply not_elem_of_nil. }
  split; [exact Hn|]. split; [exact (H1 Hn)|].
  apply (H3 (<["Keyword" := fun _ _ => raise KeyError]> KEYWORD_TEMPLATES)
            Unknown_template [] KeyError); reflexivity.
Defined.

(** C3 at the failing input, a term with a double quote between [a] and
    [b]: the message embeds the term exactly as the selector does, with
    the double quote unescaped, and not the message-escaped term, which is
    computed and then unused.  For every term the [Identifier] rendering
    puts the selector-escaped term into both strings. *)
Theorem render_message_term_unescaped :
  (∀ term rule_text,
     generate_eslint_config_object (PStr term) (PStr "Identifier") rule_text =
     ([], Ok (pattern_config
                ("Identifier[name='" +:+ selector_escape term +:+ "']")
                ("Usage of identifier '" +:+ selector_escape term
                   +:+ "' is restricted by rule: " +:+ js_escape rule_text)))) ∧
  generate_eslint_config_object
    (PStr (String "a" (String dquote (String "b" EmptyString)))) (PStr "Identifier") "r" =
    ([], Ok (pattern_config
               (String.append "Identifier[name='a" (String dquote "b']"))
               (String.append "Usage of identifier 'a"
                  (String dquote "b' is restricted by rule: r")))) ∧
  js_escape (String "a" (String dquote (String "b" EmptyString))) =
    String "a" (String backslash (String dquote (String "b" EmptyString))).
Proof.
  split; [|split; reflexivity].
  intros term rule_text. unfold generate_eslint_config_object.
  by rewrite (generate_on_strings _ Unknown_template).
Qed.

(** ** Reading the gateway's reply *)

Section StageProperties.

Variable json_loads : string -> option pyval.

Lemma getattr_silent o name : written (getattr o name) = [].
Proof. destruct o as [|attrs|]; try done. simpl. by destruct (attrs !! name). Qed.

Lemma subscript0_silent o : written (subscript0 o) = [].
Proof. by destruct o as [[| | |[|]|[|]|]| |[|]]. Qed.

Lemma loads_silent o : written (loads json_loads o) = [].
Proof. destruct o as [[| | |s| |]| |]; try done. simpl. by destruct (json_loads s). Qed.

Lemma response_json_silent response : written (response_json json_loads response) = [].
Proof.
  unfold response_json.
  repeat (apply bind_silent; [auto using getattr_silent, subscript0_silent|intros ?]).
  apply loads_silent.
Qed.

Lemma response_json_outcome response r :
  outcome (response_json json_loads response) = r ->
  response_json json_loads response = ([], r).
Proof.
  pose proof (response_json_silent response) as Hw.
  destruct (response_json json_loads response) as [w r']. simpl in *. by intros <-; subst.
Qed.

Lemma eq_str_true v s : eq_str v s = true -> v = PStr s.
Proof. destruct v; try done. simpl. by intros ->%String.eqb_eq. Qed.

(** ** The refine stage *)

(** C5: whatever dict the gateway's reply parses to, the refine stage
    returns, and: a [passed_through] outcome with an empty list yields
    [[rule_text]]; a [translated] outcome with an empty list is demoted to
    [untranslatable]; an [untranslatable] outcome (also the default when
    the key is missing) yields the empty list, whatever list came back. *)
Theorem refine_normalization (client : Client) (rule_text : string)
    (response : pyobj) (d : gmap string pyval) :
  client Refine rule_text = Ok response ->
  outcome (response_json json_loads response) = Ok (PDict d) ->
  ∃ out rules,
    llm_refine_rule json_loads client rule_text = ([], Ok (out, rules)) ∧
    (eq_str (default (PStr "untranslatable") (d !! "outcome")) "passed_through" = true ->
     truthy (default (PList []) (d !! "refined_rules")) = false ->
     out = PStr "passed_through" ∧ rules = PList [PStr rule_text]) ∧
    (eq_str (default (PStr "untranslatable") (d !! "outcome")) "translated" = true ->
     truthy (default (PList []) (d !! "refined_rules")) = false ->
     out = PStr "untranslatable" ∧ rules = default (PList []) (d !! "refined_rules")) ∧
    (eq_str (default (PStr "untranslatable") (d !! "outcome")) "untranslatable" = true ->
     out = PStr "untranslatable" ∧ rules = PList []).
Proof.
  intros Hc Hj%response_json_outcome.
  unfold llm_refine_rule. rewrite Hc. msimpl. rewrite Hj. msimpl.
  set (o := default (PStr "untranslatable") (d !! "outcome")).
  set (rl := default (PList []) (d !! "refined_rules")).
  destruct (eq_str o "passed_through") eqn:E1; simpl.
  - apply eq_str_true in E1 as Ho. destruct (truthy rl) eqn:T; simpl.
    + rewrite Ho. simpl. eexists _, _. split; [done|]. by repeat split.
    + eexists _, _. split; [done|]. rewrite Ho. by repeat split.
  - destruct (eq_str o "translated") eqn:E2; simpl.
    + apply eq_str_true in E2 as Ho. destruct (truthy rl) eqn:T; simpl.
      * rewrite Ho. simpl. eexists _, _. split; [done|]. by repeat split.
      * eexists _, _. split; [done|]. rewrite Ho. by repeat split.
    + destruct (eq_str o "untranslatable") eqn:E3; simpl.
      * apply eq_str_true in E3 as Ho. eexists _, _. split; [done|]. by repeat split.
      * eexists _, _. split; [done|]. by repeat split.
Qed.

End StageProperties.

(** The theorem at a reply that parses to [translated] with an empty
    list. *)
Lemma refine_normalization_witness :
  ∃ out rules,
    llm_refine_rule
      (fun _ => Some (PDict {[ "outcome" := PStr "translated"; "refined_rules" := PList [] ]}))
      (fun _ _ => Ok (chat_reply "reply")) "No fallbacks" = ([], Ok (out, rules)) ∧
    out = PStr "untranslatable" ∧ rules = PList [].
Proof.
  destruct (refine_normalization
    (fun _ => Some (PDict {[ "outcome" := PStr "translated"; "refined_rules" := PList [] ]}))
    (fun _ _ => Ok (chat_reply "reply")) "No fallbacks" (chat_reply "reply")
    {[ "outcome" := PStr "translated"; "refined_rules" := PList [] ]})
    as (out & rules & Hrun & _ & Htr & _); [reflexivity..|].
  exists out, rules. split; [exact Hrun|]. apply Htr; reflexivity.
Defined.

(** ** The extract stage *)

Section ExtractProperties.

Variable json_loads : string -> option pyval.

Lemma subscript0_raises o w e :
  subscript0 o = (w, Raise e) -> e = IndexError ∨ is_parse_error e = false.
Proof.
  destruct o as [[| | |[|]|[|]|]| |[|]]; simpl; intros [= <- <-]; auto.
Qed.

(** Once the reply is bound, the handlers return the empty list for
    every failure of reading it except an [IndexError]. *)
Lemma extract_handler_after_reply rule_text response e :
  outcome (response_json json_loads response) = Raise e ->
  e ≠ IndexError ->
  ∃ w, extract_handler rule_text (Some response) e = (w, Ok []).
Proof.
  intros Hr He. unfold extract_handler.
  destruct (is_parse_error e) eqn:Hp; [|by eexists].
  assert (∃ c, subscript0 (getattr_default response "choices" (Seq [Val PNone]))
               = ([], Ok c)) as [c Hc].
  { destruct response as [v|attrs|items]; [by eexists| |by eexists]. simpl.
    destruct (attrs !! "choices") as [ch|] eqn:Hch; [|by eexists]. simpl.
    unfold response_json in Hr. simpl in Hr. rewrite Hch in Hr.
    unfold mbind, mret, M_bind, M_ret in Hr. simpl in Hr.
    pose proof (subscript0_silent ch) as Hs.
    destruct (subscript0 ch) as [w [c|e']] eqn:Esub; simpl in Hs; subst w; [by eexists|].
    exfalso. simpl in Hr. injection Hr as ->.
    destruct (subscript0_raises _ _ _ Esub); congruence. }
  simpl. msimpl. rewrite Hc. by eexists.
Qed.

(** C6, without a check of the elements: the extract stage returns the empty list when the
    gateway call raises an error outside the parse-error classes, when
    reading or parsing the reply fails other than by an [IndexError]
    (missing attributes, content that is not a string or not valid JSON),
    and when the parsed result is not a dict, has no [flags], or its
    [flags] is not a list.  A [flags] list is returned as it came, its
    elements unchecked. *)
Theorem extract_safe_default (client : Client) (rule_text : string) :
  (∀ e, client Extract rule_text = Raise e -> is_parse_error e = false ->
     llm_extract_flags json_loads client rule_text =
     ([ExtractCallError rule_text e], Ok [])) ∧
  (∀ response e, client Extract rule_text = Ok response ->
     outcome (response_json json_loads response) = Raise e -> e ≠ IndexError ->
     outcome (llm_extract_flags json_loads client rule_text) = Ok []) ∧
  (∀ response v, client Extract rule_text = Ok response ->
     outcome (response_json json_loads response) = Ok v ->
     (∀ d flags, v = PDict d -> d !! "flags" ≠ Some (PList flags)) ->
     llm_extract_flags json_loads client rule_text =
     ([ExtractMalformed rule_text v], Ok [])) ∧
  (∀ response d flags, client Extract rule_text = Ok response ->
     outcome (response_json json_loads response) = Ok (PDict d) ->
     d !! "flags" = Some (PList flags) ->
     llm_extract_flags json_loads client rule_text = ([], Ok flags)).
Proof.
  unfold llm_extract_flags. repeat split.
  - intros e -> Hp. unfold extract_handler. by rewrite Hp.
  - intros response e -> Hr He.
    destruct (extract_handler_after_reply rule_text response e Hr He) as [w Hw].
    apply response_json_outcome in Hr. rewrite Hr. msimpl. by rewrite Hw.
  - intros response v -> Hr%response_json_outcome Hv. rewrite Hr. msimpl.
    destruct v as [| | | | |d]; try done.
    destruct (d !! "flags") as [[| | | |flags|]|] eqn:Hd; try done.
    by destruct (Hv d flags).
  - intros response d flags -> Hr%response_json_outcome Hd. rewrite Hr. msimpl.
    by rewrite Hd.
Qed.

End ExtractProperties.

(** The theorem at a timed-out call, at a reply that is not JSON, at a
    parsed result whose [flags] is a string, and at a well-formed one. *)
Lemma extract_safe_default_witness :
  llm_extract_flags sample_loads (fun _ _ => Raise (OtherException "APITimeoutError")) "r" =
    ([ExtractCallError "r" (OtherException "APITimeoutError")], Ok []) ∧
  outcome (llm_extract_flags sample_loads (fun _ _ => Ok (chat_reply "junk")) "r") = Ok [] ∧
  llm_extract_flags sample_loads (fun _ _ => Ok (chat_reply "text")) "r" =
    ([ExtractMalformed "r" (PDict {[ "flags" := PStr "none" ]})], Ok []) ∧
  llm_extract_flags sample_loads (fun _ _ => Ok (chat_reply "bad")) "r" =
    ([], Ok [PInt 5]).
Proof.
  split; [|split; [|split]].
  - by apply (extract_safe_default sample_loads (fun _ _ => Raise (OtherException "APITimeoutError")) "r").
  - by apply (extract_safe_default sample_loads (fun _ _ => Ok (chat_reply "junk")) "r")
      with (response := chat_reply "junk") (e := JSONDecodeError).
  - apply (extract_safe_default sample_loads (fun _ _ => Ok (chat_reply "text")) "r")
      with (response := chat_reply "text"); [done..|].
    intros d flags [= <-]. done.
  - by apply (extract_safe_default sample_loads (fun _ _ => Ok (chat_reply "bad")) "r")
      with (response := chat_reply "bad") (d := {[ "flags" := PList [PInt 5] ]}).
Defined.

(** C6 as stated fails at a [flags] list whose element is not a flag
    object: the list is returned as it came, not replaced by the empty
    list. *)
Lemma extract_returns_malformed_elements :
  llm_extract_flags (fun _ => Some (PDict {[ "flags" := PList [PInt 5] ]}))
    (fun _ _ => Ok (chat_reply "reply")) "r" = ([], Ok [PInt 5]) ∧
  [PInt 5] ≠ ([] : list pyval).
Proof. split; [reflexivity | discriminate]. Qed.

(** The slip in the first handler: a call that raises one of the parse
    errors leaves [response] unbound, and a reply without choices fails
    again at [[0]]; both leave the function by an exception. *)
Lemma extract_handler_raises :
  llm_extract_flags (fun _ => None) (fun _ _ => Raise AttributeError) "r" =
    ([], Raise UnboundLocalError) ∧
  llm_extract_flags (fun _ => None) (fun _ _ => Ok (Obj {[ "choices" := Seq [] ]})) "r" =
    ([], Raise IndexError).
Proof. split; reflexivity. Qed.

(** ** The orchestrator *)

Lemma collect_returned all_flag_configs result_list :
  collect all_flag_configs (Ok result_list) = ([], Ok (all_flag_configs ++ result_list)).
Proof. destruct result_list; unfold collect; msimpl; by rewrite ?app_nil_r. Qed.

Lemma collect_raised all_flag_configs exc :
  collect all_flag_configs (Raise exc) =
  ([FutureError exc; TracebackLogged exc], Ok all_flag_configs).
Proof. reflexivity. Qed.

(** The join loop never raises: it gathers the lists of the futures that
    returned and writes two messages for each one that raised. *)
Lemma join_loop futures : ∀ all_flag_configs,
  foldlM collect all_flag_configs futures =
  (failure_log futures, Ok (all_flag_configs ++ mjoin (returned futures))).
Proof.
  induction futures as [|[r|e] futures IH]; intros acc.
  - simpl. by rewrite app_nil_r.
  - rewrite (foldlM_cons_ok _ _ _ _ (acc ++ r)) by apply collect_returned.
    rewrite IH. simpl. by rewrite app_assoc.
  - cbn [foldlM]. rewrite collect_raised. unfold mbind, M_bind. by rewrite IH.
Qed.

Lemma omap_lookup_seq {A} (l2 : list A) : ∀ l1,
  omap (fun i => (l1 ++ l2) !! i) (seq (length l1) (length l2)) = l2.
Proof.
  induction l2 as [|x l2 IH]; intros l1; [done|].
  simpl. rewrite list_lookup_middle by done. f_equal.
  specialize (IH (l1 ++ [x])). rewrite <- app_assoc, length_app in IH. simpl in IH.
  by rewrite Nat.add_1_r in IH.
Qed.

(** Whatever the completion order, every future is collected once. *)
Lemma completed_futures {A} (futures : list A) completed :
  completed ≡ₚ seq 0 (length futures) ->
  omap (fun i => futures !! i) completed ≡ₚ futures.
Proof.
  intros ->. pose proof (omap_lookup_seq futures []) as H. simpl in H. by rewrite H.
Qed.

Lemma failures_single {A} (futures : list (result A)) : ∀ k e,
  futures !! k = Some (Raise e) ->
  (∀ i e', i ≠ k -> futures !! i ≠ Some (Raise e')) ->
  failures futures = [e].
Proof.
  induction futures as [|f futures IH]; intros k e; [done|].
  destruct k as [|k]; simpl.
  - intros [= ->] Hothers. unfold failures. simpl. f_equal.
    clear IH. induction futures as [|[r|e'] futures IH]; [done| |].
    + simpl. apply IH. intros [|i] e' Hi; [done|]. apply (Hothers (S (S i))). lia.
    + by destruct (Hothers 1 e').
  - intros Hk Hothers. destruct f as [r|e'].
    + unfold failures. simpl. apply (IH k e Hk).
      intros i e' Hi. apply (Hothers (S i)). lia.
    + by destruct (Hothers 0 e').
Qed.

Section OrchestratorProperties.

Variable json_loads : string -> option pyval.

(** C7, without the rule text in the log: when exactly one task of the
    batch raises, then for every completion order the orchestrator
    returns; its list is the concatenation, in completion order, of the
    lists of the tasks that returned, which are the other tasks, so it
    holds every pair they produced and is a permutation of their lists in
    submission order; and the log of its join loop reports the failure by
    the exception raised and a stack trace, nothing else. *)

Theorem orchestrator_fault_isolation (client : nat -> Client)
    (refined_rules : list string) (completed : list nat) (k : nat) (e : exn) :
  completed ≡ₚ seq 0 (length refined_rules) ->
  (outcome <$> tasks json_loads client refined_rules) !! k = Some (Raise e) ->
  (∀ i e', i ≠ k ->
     (outcome <$> tasks json_loads client refined_rules) !! i ≠ Some (Raise e')) ->
  ∃ all_flag_configs,
    run_parallel_rule_processing json_loads client refined_rules completed =
      ([ProcessingRules (length refined_rules); ExtractingFlags;
        FutureError e; TracebackLogged e], Ok all_flag_configs) ∧
    all_flag_configs =
      mjoin (returned (in_completion_order
                         (outcome <$> tasks json_loads client refined_rules) completed)) ∧
    all_flag_configs ≡ₚ
      mjoin (returned (outcome <$> tasks json_loads client refined_rules)) ∧
    (∀ i r p, i ≠ k ->
       (outcome <$> tasks json_loads client refined_rules) !! i = Some (Ok r) ->
       p ∈ r -> p ∈ all_flag_configs).
Proof.
  set (futures := outcome <$> tasks json_loads client refined_rules).
  intros Hperm Hk Hothers.
  assert (Hlen : length futures = length refined_rules).
  { unfold futures, tasks. by rewrite length_fmap, length_imap. }
  rewrite <- Hlen in Hperm. apply completed_futures in Hperm.
  exists (mjoin (returned (omap (fun i => futures !! i) completed))).
  assert (Hall : mjoin (returned (omap (fun i => futures !! i) completed))
                 ≡ₚ mjoin (returned futures)).
  { unfold returned. by rewrite Hperm. }
  split; [|split; [done|split; [done|]]].
  - unfold run_parallel_rule_processing. fold futures. msimpl.
    rewrite join_loop. simpl. do 3 f_equal.
    unfold failure_log.
    assert (failures (omap (fun i => futures !! i) completed) = [e]) as ->; [|done].
    apply Permutation_singleton_r. rewrite <- (failures_single futures k e Hk Hothers).
    unfold failures. by rewrite Hperm.
  - intros i r p _ Hi Hp. rewrite Hall. apply list_elem_of_join. exists r. split; [done|].
    apply list_elem_of_omap. exists (Ok r). split; [|done].
    by apply list_elem_of_lookup_2 in Hi.
Qed.

End OrchestratorProperties.

(** The theorem at a batch of three whose first task raises and whose
    last task finishes first. *)
Lemma orchestrator_fault_isolation_witness :
  [2; 0; 1] ≡ₚ seq 0 (length ["first rule"; "second rule"; "third rule"]) ∧
  run_parallel_rule_processing sample_loads sample_client
    ["first rule"; "second rule"; "third rule"] [2; 0; 1] =
    ([ProcessingRules 3; ExtractingFlags;
      FutureError AttributeError; TracebackLogged AttributeError],
     Ok [(PStr "error",
          pattern_config "Identifier[name='eval']"
            "Usage of identifier 'eval' is restricted by rule: third rule");
         (PStr "error",
          pattern_config "Identifier[name='eval']"
            "Usage of identifier 'eval' is restricted by rule: second rule")]).
Proof.
  assert (Hperm : [2; 0; 1] ≡ₚ seq 0 (length ["first rule"; "second rule"; "third rule"])).
  { simpl. etrans; [apply perm_swap|]. apply perm_skip, perm_swap. }
  split; [exact Hperm|].
  destruct (orchestrator_fault_isolation sample_loads sample_client
              ["first rule"; "second rule"; "third rule"] [2; 0; 1] 0 AttributeError Hperm)
    as (all & Hrun & Hall & _).
  - reflexivity.
  - intros [|[|[|i]]] e' Hi; [done|discriminate..].
  - rewrite Hrun, Hall. reflexivity.
Defined.

(** C7 as stated fails at that batch: the task of ["first rule"] raises
    without having written anything, the orchestrator's log reports the
    exception and the stack trace, and no message carries the text of the
    failing rule. *)
Lemma orchestrator_log_without_rule_text :
  outcome <$> tasks sample_loads sample_client ["first rule"; "second rule"] =
    [Raise AttributeError;
     Ok [(PStr "error",
          pattern_config "Identifier[name='eval']"
            "Usage of identifier 'eval' is restricted by rule: second rule")]] ∧
  written (process_refined_rule sample_loads (sample_client 0) "first rule") = [] ∧
  written (run_parallel_rule_processing sample_loads sample_client
             ["first rule"; "second rule"] [1; 0]) =
    [ProcessingRules 2; ExtractingFlags;
     FutureError AttributeError; TracebackLogged AttributeError] ∧
  ¬ (∃ ev,
       ev ∈ written (run_parallel_rule_processing sample_loads sample_client
                       ["first rule"; "second rule"] [1; 0]) ∧
       event_rule_text ev = Some "first rule").
Proof.
  split; [reflexivity|]. split; [reflexivity|]. split; [reflexivity|].
  intros (ev & Hin & Hev).
  change (ev ∈ [ProcessingRules 2; ExtractingFlags;
                FutureError AttributeError; TracebackLogged AttributeError]) in Hin.
  repeat (apply elem_of_cons in Hin as [->|Hin]; [discriminate|]).
  by apply elem_of_nil in Hin.
Qed.

(** * Further properties *)

(** ** Strings *)

Lemma append_cons (c : ascii) (a b : string) : String c a +:+ b = String c (a +:+ b).
Proof. reflexivity. Qed.

Lemma append_nil_l (a : string) : EmptyString +:+ a = a.
Proof. reflexivity. Qed.

Lemma append_assoc (a b c : string) : (a +:+ b) +:+ c = a +:+ (b +:+ c).
Proof. induction a as [|x a IH]; [done|]. by rewrite !append_cons, IH. Qed.

Lemma append_nil_r (a : string) : a +:+ EmptyString = a.
Proof. induction a as [|x a IH]; [done|]. by rewrite append_cons, IH. Qed.

Lemma length_append (a b : string) :
  String.length (a +:+ b) = String.length a + String.length b.
Proof. induction a as [|x a IH]; [done|]. rewrite append_cons. simpl. by rewrite IH. Qed.

Lemma append_inj_length (a b x y : string) :
  String.length a = String.length b -> a +:+ x = b +:+ y -> a = b ∧ x = y.
Proof.
  revert b. induction a as [|c a IH]; intros [|d b]; try done.
  rewrite !append_cons. simpl.
  intros [= Hlen] [= -> Heq]. destruct (IH b Hlen Heq) as [-> ->]. done.
Qed.

Lemma append_inv_tail (a b x : string) : a +:+ x = b +:+ x -> a = b.
Proof.
  intros Heq. apply (append_inj_length a b x x); [|done].
  apply (f_equal String.length) in Heq. rewrite !length_append in Heq. lia.
Qed.

Lemma append_inv_head (p a b : string) : p +:+ a = p +:+ b -> a = b.
Proof. intros Heq. by apply (append_inj_length p p a b). Qed.

(** ** Escaping *)

Lemma str_replace_escape (old : ascii) (s : string) :
  str_replace old (String backslash (String old EmptyString)) s =
  escape_chars (fun c => Ascii.eqb c old) s.
Proof.
  induction s as [|c s IH]; simpl; [done|].
  destruct (Ascii.eqb c old) eqn:E; rewrite IH; [|done].
  rewrite !append_cons, append_nil_l. by apply Ascii.eqb_eq in E as ->.
Qed.

(** Two passes are one, when the second does not touch the backslashes
    and the characters of the first. *)
Lemma escape_chars_compose (P Q : ascii -> bool) (s : string) :
  P backslash = false -> (∀ c, Q c = true -> P c = false) ->
  escape_chars P (escape_chars Q s) = escape_chars (fun c => Q c || P c) s.
Proof.
  intros Hb Hdis. induction s as [|c s IH]; simpl; [done|].
  destruct (Q c) eqn:Eq; simpl.
  - by rewrite Hb, (Hdis c Eq), IH.
  - destruct (P c); by rewrite IH.
Qed.

Lemma escape_chars_ext (P Q : ascii -> bool) (s : string) :
  (∀ c, P c = Q c) -> escape_chars P s = escape_chars Q s.
Proof. intros H. induction s as [|c s IH]; simpl; [done|]. by rewrite H, IH. Qed.

(** X1: the three chained replacements of the message escaping act as a
    single pass that puts one backslash before each backslash, single
    quote and double quote and leaves every other character alone; the
    selector escaping is the same pass for the single quote only. *)
Theorem js_escape_single_pass (s : string) :
  js_escape s = escape_chars js_special s ∧
  selector_escape s = escape_chars selector_special s.
Proof.
  split; [|apply str_replace_escape].
  unfold js_escape. rewrite !str_replace_escape.
  rewrite (escape_chars_compose (fun c => Ascii.eqb c squote)); [|done|].
  - rewrite (escape_chars_compose (fun c => Ascii.eqb c dquote)); [done|done|].
    intros c [Hc|Hc]%orb_prop; apply Ascii.eqb_eq in Hc as ->; done.
  - by intros c ->%Ascii.eqb_eq.
Qed.

Lemma escape_chars_head special s c t :
  escape_chars special s = String c t -> c = backslash ∨ special c = false.
Proof.
  destruct s as [|d s]; simpl; [done|].
  destruct (special d) eqn:E; intros [= <- _]; auto.
Qed.

Lemma escape_chars_inj special : Inj (=) (=) (escape_chars special).
Proof.
  intros s1. induction s1 as [|c1 s1 IH]; intros [|c2 s2]; simpl; try done.
  - by destruct (special c2).
  - by destruct (special c1).
  - destruct (special c1) eqn:E1, (special c2) eqn:E2.
    + intros [= -> H]. by rewrite (IH _ H).
    + intros [= <- H]. symmetry in H.
      destruct (escape_chars_head _ _ _ _ H) as [->|?]; congruence.
    + intros [= -> H].
      destruct (escape_chars_head _ _ _ _ H) as [->|?]; congruence.
    + intros [= -> H]. by rewrite (IH _ H).
Qed.

Lemma escaping_injective_selector (s1 s2 : string) :
  selector_escape s1 = selector_escape s2 -> s1 = s2.
Proof. unfold selector_escape. rewrite !str_replace_escape. apply escape_chars_inj. Qed.

(** X2: both escapings lose nothing: different strings have different
    escaped forms. *)
Theorem escaping_injective (s1 s2 : string) :
  (js_escape s1 = js_escape s2 -> s1 = s2) ∧
  (selector_escape s1 = selector_escape s2 -> s1 = s2).
Proof.
  destruct (js_escape_single_pass s1) as [-> ->].
  destruct (js_escape_single_pass s2) as [-> ->].
  split; apply escape_chars_inj.
Qed.

Lemma escaping_injective_witness :
  js_escape "it's" = js_escape "it's" ∧ "it's" = "it's".
Proof.
  split; [reflexivity|]. by apply (escaping_injective "it's" "it's").
Defined.

(** ** Templates *)

Lemma selector_of_pattern_config selector message :
  selector_of (pattern_config selector message) = Some selector.
Proof. reflexivity. Qed.

Lemma message_of_pattern_config selector message :
  message_of (pattern_config selector message) = Some message.
Proof. reflexivity. Qed.

Lemma is_pattern_config_pattern_config selector message :
  is_pattern_config (pattern_config selector message) = true.
Proof. reflexivity. Qed.

Lemma append_not_empty (a b : string) : b ≠ EmptyString -> a +:+ b ≠ EmptyString.
Proof.
  intros Hb Heq. apply (f_equal String.length) in Heq.
  rewrite length_append in Heq. destruct b; [done|]. simpl in Heq. lia.
Qed.

(** The shape every template of the registry gives its result. *)
Lemma KEYWORD_TEMPLATES_shape context kw rule :
  ∃ selector before between after,
    default Unknown_template (KEYWORD_TEMPLATES !! context) kw rule =
      ([], Ok (pattern_config selector
                 (before +:+ kw +:+ between +:+ rule +:+ after))) ∧
    selector ≠ EmptyString.
Proof.
  destruct (decide (context ∈ recognized_tags)) as [Hin|Hnotin].
  - unfold recognized_tags in Hin. rewrite !elem_of_cons in Hin.
    destruct Hin as [->|[->|[->|[->|[->|[->|[]%elem_of_nil]]]]]];
      (eexists _, _, _, EmptyString; split;
       [by rewrite append_nil_r | by (done || apply append_not_empty)]).
  - rewrite KEYWORD_TEMPLATES_fallback by done.
    eexists _, _, _, _. split; [reflexivity|done].
Qed.

Lemma contains_middle (a b c : string) : contains b (a +:+ b +:+ c).
Proof. by exists a, c. Qed.

Lemma render_selector_and_message_shared (term context rule_text : string) :
  ∃ selector message,
    generate_eslint_config_object (PStr term) (PStr context) rule_text =
      ([], Ok (pattern_config selector message)) ∧
    selector ≠ EmptyString.
Proof.
  unfold generate_eslint_config_object.
  rewrite (generate_on_strings _ Unknown_template) by done.
  destruct (KEYWORD_TEMPLATES_shape context (selector_escape term) (js_escape rule_text))
    as (sel & before & between & after & -> & Hne). eauto.
Qed.

(** X3: rendering a flag with a string term and context always yields a
    PatternConfig whose selector is not empty (the aggregator's guard
    against empty selectors never drops a rendered config) and whose
    message contains the escaped term and the escaped rule text. *)
Theorem render_selector_and_message (term context rule_text : string) :
  ∃ selector message,
    generate_eslint_config_object (PStr term) (PStr context) rule_text =
      ([], Ok (pattern_config selector message)) ∧
    selector ≠ EmptyString ∧
    contains (selector_escape term) message ∧
    contains (js_escape rule_text) message.
Proof.
  unfold generate_eslint_config_object.
  rewrite (generate_on_strings _ Unknown_template) by done.
  destruct (KEYWORD_TEMPLATES_shape context (selector_escape term) (js_escape rule_text))
    as (sel & before & between & after & -> & Hne).
  exists sel, (before +:+ selector_escape term +:+ between +:+ js_escape rule_text +:+ after).
  split; [done|]. split; [done|]. split.
  - apply contains_middle.
  - rewrite <- !append_assoc. rewrite (append_assoc _ (js_escape rule_text)).
    apply contains_middle.
Qed.

(** The selector each context other than [Keyword] renders: the escaped
    term between fixed strings, once or, for the fallback, twice. *)
Lemma KEYWORD_TEMPLATES_selector context :
  context ≠ "Keyword" ->
  ∃ before mid after (twice : bool), ∀ kw rule, ∃ message,
    default Unknown_template (KEYWORD_TEMPLATES !! context) kw rule =
      ([], Ok (pattern_config
                 (before +:+ kw +:+ (if twice then mid +:+ kw +:+ after else after))
                 message)).
Proof.
  intros Hkw. destruct (decide (context ∈ recognized_tags)) as [Hin|Hnotin].
  - unfold recognized_tags in Hin. rewrite !elem_of_cons in Hin.
    destruct Hin as [->|[->|[->|[->|[->|[->|[]%elem_of_nil]]]]]]; try done;
      (eexists _, EmptyString, _, false; intros kw rule; eexists; reflexivity).
  - rewrite KEYWORD_TEMPLATES_fallback by done.
    eexists _, _, _, true. intros kw rule. eexists. reflexivity.
Qed.

(** X4: for every context other than [Keyword], the rendered selector
    depends on the term alone and tells terms apart: two renderings have
    the same selector exactly when their terms are equal, whatever their
    rule texts.  So deduplication merges the flags of one term and never
    two different terms of one context. *)
Theorem render_selector_identifies_term (context term1 term2 rule1 rule2 : string)
    (c1 c2 : pyval) :
  context ≠ "Keyword" ->
  outcome (generate_eslint_config_object (PStr term1) (PStr context) rule1) = Ok c1 ->
  outcome (generate_eslint_config_object (PStr term2) (PStr context) rule2) = Ok c2 ->
  selector_of c1 = selector_of c2 ↔ term1 = term2.
Proof.
  intros Hkw. unfold generate_eslint_config_object.
  rewrite !(generate_on_strings _ Unknown_template) by done.
  destruct (KEYWORD_TEMPLATES_selector context Hkw) as (pre & mid & post & twice & Hsel).
  destruct (Hsel (selector_escape term1) (js_escape rule1)) as [m1 ->].
  destruct (Hsel (selector_escape term2) (js_escape rule2)) as [m2 ->].
  simpl. intros [= <-] [= <-]. rewrite !selector_of_pattern_config.
  split; [|by intros ->].
  intros [= Heq%append_inv_head]. apply escaping_injective_selector.
  destruct twice.
  - apply (append_inj_length _ _ _ _) in Heq as [? _]; [done|].
    apply (f_equal String.length) in Heq. rewrite !length_append in Heq. lia.
  - by apply append_inv_tail in Heq.
Qed.

Lemma render_selector_identifies_term_witness :
  "Literal" ≠ "Keyword" ∧
  (selector_of (pattern_config "Literal[value='a']" "Usage of literal 'a' is restricted by rule: one")
   = selector_of (pattern_config "Literal[value='a']" "Usage of literal 'a' is restricted by rule: two")
   ↔ "a" = "a").
Proof.
  split; [done|].
  by apply (render_selector_identifies_term "Literal" "a" "a" "one" "two").
Defined.

(** ** Tasks *)

Lemma KEYWORD_TEMPLATES_Unknown : KEYWORD_TEMPLATES !! "Unknown" = Some Unknown_template.
Proof. reflexivity. Qed.

Lemma nonempty_selector_pattern_config selector message :
  selector ≠ EmptyString -> nonempty_selector (pattern_config selector message) = true.
Proof.
  intros Hne. unfold nonempty_selector. rewrite selector_of_pattern_config.
  apply negb_true_iff. by apply String.eqb_neq.
Qed.

(** Whenever rendering returns, whatever the term and the context are, it
    returns a PatternConfig with a selector that is not empty, and it has
    written nothing. *)
Lemma generate_returns term context rule_text w c :
  generate_eslint_config_object term context rule_text = (w, Ok c) ->
  w = [] ∧ is_pattern_config c = true ∧ nonempty_selector c = true.
Proof.
  unfold generate_eslint_config_object, generate_eslint_config_object_with, as_str.
  destruct term as [| | |t| |]; try done.
  msimpl. unfold registry_item, registry_get. rewrite KEYWORD_TEMPLATES_Unknown. msimpl.
  assert (∀ kind, ∃ sel msg,
            default Unknown_template (KEYWORD_TEMPLATES !! kind)
              (selector_escape t) (js_escape rule_text) = ([], Ok (pattern_config sel msg))
            ∧ sel ≠ EmptyString) as Hshape.
  { intros kind.
    destruct (KEYWORD_TEMPLATES_shape kind (selector_escape t) (js_escape rule_text))
      as (sel & ? & ? & ? & -> & Hne). eauto. }
  destruct (Hshape "Unknown") as (selU & msgU & HU & HneU).
  rewrite KEYWORD_TEMPLATES_Unknown in HU. simpl in HU.
  unfold Unknown_template, mret, M_ret in HU.
  destruct context as [|b|z|kind|l|d]; simpl; try done.
  4:{ destruct (Hshape kind) as (sel & msg & -> & Hne). intros [= <- <-].
      by rewrite is_pattern_config_pattern_config, nonempty_selector_pattern_config. }
  all: rewrite HU; intros [= <- <-];
    by rewrite is_pattern_config_pattern_config, nonempty_selector_pattern_config.
Qed.

Section TaskProperties.

Variable json_loads : string -> option pyval.

Lemma process_flag_returns rule_text acc flag w acc' :
  process_flag rule_text acc flag = (w, Ok acc') ->
  Forall (fun p => is_pattern_config p.2 = true ∧ nonempty_selector p.2 = true) acc ->
  Forall (fun p => is_pattern_config p.2 = true ∧ nonempty_selector p.2 = true) acc'.
Proof.
  unfold process_flag. destruct flag as [| | | | |d]; try done. unfold dict_get. msimpl.
  destruct (truthy (default PNone (d !! "term"))); simpl.
  - destruct (generate_eslint_config_object _ _ rule_text) as [w' [c|e]] eqn:Hg; [|done].
    apply generate_returns in Hg as (-> & Hc & Hs).
    destruct (truthy c); intros [= <- <-] Hacc; [|done].
    apply Forall_app. split; [done|]. by repeat constructor.
  - by intros [= <- <-].
Qed.

Lemma process_flags_return rule_text flags : ∀ acc w acc',
  foldlM (process_flag rule_text) acc flags = (w, Ok acc') ->
  Forall (fun p => is_pattern_config p.2 = true ∧ nonempty_selector p.2 = true) acc ->
  Forall (fun p => is_pattern_config p.2 = true ∧ nonempty_selector p.2 = true) acc'.
Proof.
  induction flags as [|flag flags IH]; intros acc w acc'.
  - by intros [= <- <-].
  - intros (w1 & a & w2 & Hstep & Hrest & _)%foldlM_cons_inv Hacc.
    eapply IH; [exact Hrest|]. by eapply process_flag_returns.
Qed.

Lemma task_pairs_pattern_configs (client : Client) (rule_text : string)
    (generated_configs : list (pyval * pyval)) :
  outcome (process_refined_rule json_loads client rule_text) = Ok generated_configs ->
  Forall (fun p => is_pattern_config p.2 = true ∧ nonempty_selector p.2 = true)
    generated_configs.
Proof.
  unfold process_refined_rule.
  destruct (llm_extract_flags json_loads client rule_text) as [w [flags|e]]; [|done].
  msimpl. destruct flags as [|flag flags]; [by intros [= <-]|].
  destruct (foldlM _ _ (flag :: flags)) as [w' [l|e]] eqn:Hl; [|done].
  simpl. intros [= <-]. by eapply process_flags_return.
Qed.

(** X5: whatever the gateway replied, every pair a task returns carries
    a PatternConfig with a selector that is not empty. *)
Theorem process_refined_rule_pattern_configs (client : Client) (rule_text : string)
    (generated_configs : list (pyval * pyval)) :
  outcome (process_refined_rule json_loads client rule_text) = Ok generated_configs ->
  Forall (fun p => is_pattern_config p.2 = true ∧ nonempty_selector p.2 = true)
    generated_configs.
Proof. apply task_pairs_pattern_configs. Qed.

End TaskProperties.

Lemma process_refined_rule_pattern_configs_witness :
  outcome (process_refined_rule sample_loads (sample_client 1) "second rule") =
    Ok [(PStr "error",
         pattern_config "Identifier[name='eval']"
           "Usage of identifier 'eval' is restricted by rule: second rule")] ∧
  Forall (fun p => is_pattern_config p.2 = true ∧ nonempty_selector p.2 = true)
    [(PStr "error",
      pattern_config "Identifier[name='eval']"
        "Usage of identifier 'eval' is restricted by rule: second rule")].
Proof.
  split; [reflexivity|].
  by apply (process_refined_rule_pattern_configs sample_loads (sample_client 1) "second rule").
Defined.

Lemma foldlM_cons_step {A B} (step : A -> B -> M A) acc x xs w1 a w2 r :
  step acc x = (w1, Ok a) -> foldlM step a xs = (w2, r) ->
  foldlM step acc (x :: xs) = (w1 ++ w2, r).
Proof. intros H1 H2. simpl. rewrite H1. msimpl. by rewrite H2. Qed.

Lemma foldlM_app_step {A B} (step : A -> B -> M A) xs : ∀ acc ys w1 a w2 r,
  foldlM step acc xs = (w1, Ok a) -> foldlM step a ys = (w2, r) ->
  foldlM step acc (xs ++ ys) = (w1 ++ w2, r).
Proof.
  induction xs as [|x xs IH]; intros acc ys w1 a w2 r.
  - intros [= <- <-] Hys. simpl. done.
  - intros (u1 & b & u2 & Hstep & Hrest & ->)%foldlM_cons_inv Hys.
    rewrite <- app_comm_cons, <- app_assoc.
    eapply foldlM_cons_step; [done|]. by eapply IH.
Qed.

Lemma process_flag_without_term rule_text acc flag :
  is_dict flag = true -> truthy (flag_term flag) = false ->
  process_flag rule_text acc flag = ([FlagMissingTerm rule_text flag], Ok acc).
Proof.
  destruct flag as [| | | | |d]; try done. simpl. intros _ Ht.
  unfold process_flag, dict_get. msimpl. by rewrite Ht.
Qed.

Lemma truthy_pattern_config selector message :
  truthy (pattern_config selector message) = true.
Proof.
  unfold pattern_config. simpl. apply negb_true_iff, bool_decide_eq_false.
  intros Hempty. apply (f_equal (lookup "selector")) in Hempty.
  by rewrite lookup_empty in Hempty.
Qed.

Lemma process_flag_rendered rule_text acc d config :
  truthy (default PNone (d !! "term")) = true ->
  generate_eslint_config_object (default PNone (d !! "term"))
    (default (PStr "Unknown") (d !! "context")) rule_text = ([], Ok config) ->
  truthy config = true ->
  process_flag rule_text acc (PDict d) =
    ([], Ok (acc ++ [(default (PStr "warn") (d !! "severity"), config)])).
Proof.
  intros Ht Hg Hc. unfold process_flag, dict_get. msimpl. rewrite Ht. simpl.
  rewrite Hg. simpl. by rewrite Hc.
Qed.

Lemma process_flag_with_term rule_text acc flag :
  well_shaped_flag flag = true -> truthy (flag_term flag) = true ->
  ∃ config,
    process_flag rule_text acc flag = ([], Ok (acc ++ [(flag_severity flag, config)])) ∧
    generate_eslint_config_object (flag_term flag) (flag_context flag) rule_text =
      ([], Ok config).
Proof.
  destruct flag as [| | | | |d]; try done. unfold well_shaped_flag. simpl.
  intros Hws Ht.
  destruct (default PNone (d !! "term")) as [| | |t| |] eqn:Hterm; try done.
  destruct (default (PStr "Unknown") (d !! "context")) as [| | |kind| |] eqn:Hctx; try done.
  destruct (render_selector_and_message_shared t kind rule_text) as (sel & msg & Hg & Hne).
  exists (pattern_config sel msg). split; [|done].
  apply process_flag_rendered; rewrite ?Hterm, ?Hctx; [done..|].
  apply truthy_pattern_config.
Qed.

(** The flags that have a term, and those that do not. *)
Lemma process_flags_well_shaped rule_text flags : ∀ acc,
  Forall (fun flag => well_shaped_flag flag = true) flags ->
  ∃ new,
    foldlM (process_flag rule_text) acc flags =
      (FlagMissingTerm rule_text <$> filter (fun flag => ¬ truthy (flag_term flag)) flags,
       Ok (acc ++ new)) ∧
    Forall2 (fun p flag =>
               p.1 = flag_severity flag ∧
               generate_eslint_config_object (flag_term flag) (flag_context flag) rule_text
                 = ([], Ok p.2))
      new (filter (fun flag => truthy (flag_term flag)) flags).
Proof.
  induction flags as [|flag flags IH]; intros acc Hws.
  - exists []. by rewrite app_nil_r.
  - apply Forall_cons in Hws as [Hflag Hws]. rewrite !filter_cons.
    destruct (truthy (flag_term flag)) eqn:Ht.
    + destruct (process_flag_with_term rule_text acc flag Hflag Ht) as (c & Hstep & Hg).
      destruct (IH (acc ++ [(flag_severity flag, c)]) Hws) as (new & Hrest & Hnew).
      exists ((flag_severity flag, c) :: new).
      rewrite decide_False by (by intros []). rewrite decide_True by done.
      split; [|by constructor].
      rewrite (foldlM_cons_step _ _ _ _ _ _ _ _ Hstep Hrest). by rewrite <- app_assoc.
    + destruct (IH acc Hws) as (new & Hrest & Hnew). exists new.
      rewrite decide_True by (by intros ?). rewrite decide_False by (by intros ?).
      split; [|done].
      assert (Hd : is_dict flag = true).
      { unfold well_shaped_flag in Hflag. by destruct (is_dict flag). }
      by rewrite (foldlM_cons_step _ _ _ _ _ _ _ _
                    (process_flag_without_term rule_text acc flag Hd Ht) Hrest).
Qed.

Section TaskOnFlags.

Variable json_loads : string -> option pyval.

(** X6: when the extracted flags are flag objects with string (or
    missing) terms and contexts, the task returns; it yields one pair per
    flag that has a term, in the flags' order, carrying the flag's
    severity ([warn] when the flag has none) and the rendering of its term
    under its context ([Unknown] when it has none); and it writes one
    warning per flag without a term, after whatever the extraction
    wrote. *)
Theorem process_refined_rule_well_shaped (client : Client) (rule_text : string)
    (flags : list pyval) :
  outcome (llm_extract_flags json_loads client rule_text) = Ok flags ->
  Forall (fun flag => well_shaped_flag flag = true) flags ->
  ∃ generated_configs,
    process_refined_rule json_loads client rule_text =
      (written (llm_extract_flags json_loads client rule_text) ++
         (FlagMissingTerm rule_text <$>
            filter (fun flag => ¬ truthy (flag_term flag)) flags),
       Ok generated_configs) ∧
    Forall2 (fun p flag =>
               p.1 = flag_severity flag ∧
               generate_eslint_config_object (flag_term flag) (flag_context flag) rule_text
                 = ([], Ok p.2))
      generated_configs (filter (fun flag => truthy (flag_term flag)) flags).
Proof.
  intros Hflags Hws. unfold process_refined_rule.
  destruct (llm_extract_flags json_loads client rule_text) as [w [fl|e]]; [|done].
  simpl in Hflags. injection Hflags as ->. msimpl.
  destruct (process_flags_well_shaped rule_text flags [] Hws) as (new & Hrun & Hnew).
  exists new. split; [|done].
  destruct flags as [|flag flags]; [|by rewrite Hrun].
  simpl in Hrun. by injection Hrun as <-.
Qed.

(** X7: a flag that is not an object makes the task raise
    [AttributeError], so that the pairs of the flags before it are lost
    with it. *)
Theorem process_refined_rule_bad_flag (client : Client) (rule_text : string)
    (before : list pyval) (bad : pyval) (after : list pyval) :
  outcome (llm_extract_flags json_loads client rule_text) = Ok (before ++ bad :: after) ->
  Forall (fun flag => well_shaped_flag flag = true) before ->
  is_dict bad = false ->
  outcome (process_refined_rule json_loads client rule_text) = Raise AttributeError.
Proof.
  intros Hflags Hws Hbad. unfold process_refined_rule.
  destruct (llm_extract_flags json_loads client rule_text) as [w [fl|e]]; [|done].
  simpl in Hflags. injection Hflags as ->. msimpl.
  destruct (process_flags_well_shaped rule_text before [] Hws) as (new & Hrun & _).
  assert (Hbadrun : foldlM (process_flag rule_text) ([] ++ new) (bad :: after)
                    = ([], Raise AttributeError)).
  { apply foldlM_cons_raise. by destruct bad. }
  rewrite (foldlM_app_step _ _ _ _ _ _ _ _ Hrun Hbadrun).
  by destruct before.
Qed.

End TaskOnFlags.

Lemma process_refined_rule_well_shaped_witness :
  ∃ generated_configs,
    process_refined_rule sample_loads (sample_client 1) "second rule" =
      ([], Ok generated_configs) ∧
    generated_configs.*1 = [PStr "error"].
Proof.
  destruct (process_refined_rule_well_shaped sample_loads (sample_client 1) "second rule"
    [PDict {[ "term" := PStr "eval"; "context" := PStr "Identifier";
              "severity" := PStr "error" ]}])
    as (l & Hrun & Hl); [reflexivity|by repeat constructor|].
  exists l. split; [exact Hrun|].
  rewrite filter_cons_True in Hl by exact I. rewrite filter_nil in Hl.
  apply Forall2_cons_inv_r in Hl as (p & l' & [Hp _] & ->%Forall2_nil_inv_r & ->).
  simpl. by rewrite Hp.
Defined.

Lemma process_refined_rule_bad_flag_witness :
  outcome (process_refined_rule sample_loads (sample_client 0) "first rule") =
    Raise AttributeError.
Proof.
  by apply (process_refined_rule_bad_flag sample_loads (sample_client 0) "first rule"
              [] (PInt 5) []).
Defined.

(** ** The orchestrator on any batch *)

Section Pipeline.

Variable json_loads : string -> option pyval.

Lemma run_parallel_join (client : nat -> Client) (refined_rules : list string)
    (completed : list nat) :
  run_parallel_rule_processing json_loads client refined_rules completed =
  ([ProcessingRules (length refined_rules); ExtractingFlags] ++
     failure_log (omap (fun i => (outcome <$> tasks json_loads client refined_rules) !! i)
                    completed),
   Ok (mjoin (returned
        (omap (fun i => (outcome <$> tasks json_loads client refined_rules) !! i)
           completed)))).
Proof. unfold run_parallel_rule_processing. msimpl. by rewrite join_loop. Qed.

(** X8: whatever number of tasks raise and in whatever order the tasks
    complete, the orchestrator returns; every task is collected exactly
    once: its list is the concatenation, in completion order, of the lists
    of the tasks that returned, and the log of its join loop holds, after
    the two opening lines, an error line and a stack trace for each task
    that raised, in completion order. *)
Theorem run_parallel_collects_every_task (client : nat -> Client)
    (refined_rules : list string) (completed : list nat) :
  completed ≡ₚ seq 0 (length refined_rules) ->
  in_completion_order (outcome <$> tasks json_loads client refined_rules) completed
    ≡ₚ outcome <$> tasks json_loads client refined_rules ∧
  run_parallel_rule_processing json_loads client refined_rules completed =
    ([ProcessingRules (length refined_rules); ExtractingFlags] ++
       failure_log (in_completion_order
                      (outcome <$> tasks json_loads client refined_rules) completed),
     Ok (mjoin (returned (in_completion_order
                            (outcome <$> tasks json_loads client refined_rules)
                            completed)))).
Proof.
  intros Hperm. split; [|apply run_parallel_join].
  apply completed_futures. unfold tasks. by rewrite length_fmap, length_imap.
Qed.

Lemma tasks_lookup (client : nat -> Client) (refined_rules : list string) i f :
  (outcome <$> tasks json_loads client refined_rules) !! i = Some f ->
  ∃ rule_text, f = outcome (process_refined_rule json_loads (client i) rule_text).
Proof.
  rewrite list_lookup_fmap. unfold tasks. rewrite list_lookup_imap.
  destruct (refined_rules !! i) as [rule_text|]; [|done]. simpl. intros [= <-]. eauto.
Qed.

Lemma run_parallel_pattern_configs (client : nat -> Client)
    (refined_rules : list string) (completed : list nat) :
  ∃ all_flag_configs,
    outcome (run_parallel_rule_processing json_loads client refined_rules completed) =
      Ok all_flag_configs ∧
    Forall (fun p => is_pattern_config p.2 = true ∧ nonempty_selector p.2 = true)
      all_flag_configs.
Proof.
  rewrite run_parallel_join. eexists. split; [done|].
  apply Forall_forall. intros p (r & Hp & Hr)%list_elem_of_join.
  apply list_elem_of_omap in Hr as ([r'|e] & Hin & [= ->]).
  apply list_elem_of_omap in Hin as (i & _ & Hi).
  apply tasks_lookup in Hi as (rule_text & Hi). symmetry in Hi.
  apply task_pairs_pattern_configs in Hi. rewrite Forall_forall in Hi. by apply Hi.
Qed.

(** X9: the orchestrator's result is always fit for the aggregator:
    whatever the gateway replies and whichever tasks fail, aggregating
    what the orchestrator returns never raises, and every config of the
    batch is kept, up to its selector, in the aggregated patterns. *)
Theorem pipeline_aggregates (client : nat -> Client) (refined_rules : list string)
    (completed : list nat) :
  ∃ all_flag_configs rules severity,
    outcome (run_parallel_rule_processing json_loads client refined_rules completed) =
      Ok all_flag_configs ∧
    aggregate_eslint_configs all_flag_configs =
      ([Aggregating (length all_flag_configs)],
       Ok (rules, severity, length (patterns rules))) ∧
    ∀ p, p ∈ all_flag_configs ->
      ∃ c, c ∈ patterns rules ∧ selector_of c = selector_of p.2.
Proof.
  destruct (run_parallel_pattern_configs client refined_rules completed)
    as (all & Hrun & Hall).
  assert (Hwf : Forall (fun p => is_pattern_config p.2 = true) all).
  { eapply Forall_impl; [exact Hall|]. by intros p [? _]. }
  destruct (aggregate_pattern_configs all Hwf) as (rules & sev & Hagg & Hpat).
  exists all, rules, sev. split; [done|]. split; [done|].
  intros p Hp. rewrite Hpat. apply first_seen_covers, list_elem_of_filter.
  rewrite Forall_forall in Hall. destruct (Hall p Hp) as [_ Hne]. split.
  - by rewrite Hne.
  - apply list_elem_of_fmap. eauto.
Qed.

End Pipeline.

Lemma run_parallel_collects_every_task_witness :
  [2; 0; 1] ≡ₚ seq 0 (length ["first rule"; "second rule"; "third rule"]) ∧
  run_parallel_rule_processing sample_loads sample_client
    ["first rule"; "second rule"; "third rule"] [2; 0; 1] =
    ([ProcessingRules 3; ExtractingFlags;
      FutureError AttributeError; TracebackLogged AttributeError],
     Ok [(PStr "error",
          pattern_config "Identifier[name='eval']"
            "Usage of identifier 'eval' is restricted by rule: third rule");
         (PStr "error",
          pattern_config "Identifier[name='eval']"
            "Usage of identifier 'eval' is restricted by rule: second rule")]).
Proof.
  assert (Hperm : [2; 0; 1] ≡ₚ seq 0 (length ["first rule"; "second rule"; "third rule"])).
  { simpl. etrans; [apply perm_swap|]. apply perm_skip, perm_swap. }
  split; [exact Hperm|].
  destruct (run_parallel_collects_every_task sample_loads sample_client
              ["first rule"; "second rule"; "third rule"] [2; 0; 1] Hperm) as [_ Hrun].
  rewrite Hrun. reflexivity.
Defined.

(** ** The aggregator: what decides the severity *)

Lemma aggregate_loop_severity l : ∀ st,
  Forall (fun p => is_pattern_config p.2 = true) l ->
  ∃ st', foldlM aggregate_step st l = ([], Ok st') ∧
    (highest_severity st' = "error" ↔
     highest_severity st = "error" ∨
     ∃ i severity config,
       l !! i = Some (severity, config) ∧ eq_str severity "error" = true ∧
       nonempty_selector config = true ∧ unseen (seen_selectors st) config ∧
       ∀ j p, j < i -> l !! j = Some p -> selector_of p.2 ≠ selector_of config).
Proof.
  induction l as [|[sev c] l IH]; intros st Hwf.
  - exists st. split; [done|]. split; [by left|]. by intros [?|(i & ? & ? & ? & _)].
  - apply Forall_cons in Hwf as [Hc Hwf]. simpl in Hc.
    destruct (is_pattern_config_inv c Hc) as (d & s & -> & Hd & Hs).
    assert (Hne : nonempty_selector (PDict d) = negb (String.eqb s EmptyString)).
    { unfold nonempty_selector. by rewrite Hs. }
    (* a later pair, seen from the head *)
    assert (Hlater : ∀ S' : gset hkey,
      (∀ c', unseen S' c' -> selector_of c' ≠ Some s ∨ nonempty_selector c' = false) ->
      (∃ i severity config,
         l !! i = Some (severity, config) ∧ eq_str severity "error" = true ∧
         nonempty_selector config = true ∧ unseen S' config ∧
         ∀ j p, j < i -> l !! j = Some p -> selector_of p.2 ≠ selector_of config) ->
      ∃ i severity config,
        ((sev, PDict d) :: l) !! i = Some (severity, config) ∧
        eq_str severity "error" = true ∧
        nonempty_selector config = true ∧ unseen S' config ∧
        ∀ j p, j < i -> ((sev, PDict d) :: l) !! j = Some p ->
               selector_of p.2 ≠ selector_of config).
    { intros S' HS' (i & sv & cf & Hi & He & Hn & Hu & Hfirst).
      exists (S i), sv, cf. repeat split; [done..|].
      intros [|j] p Hj; simpl.
      - intros [= <-]. cbn [snd]. rewrite Hs.
        destruct (HS' cf Hu) as [H|H]; [congruence|]. congruence.
      - intros Hp. apply (Hfirst j); [lia|done]. }
    destruct (String.eqb s EmptyString) eqn:Es; simpl in Hne.
    + (* empty selector: skipped *)
      destruct (IH st Hwf) as (st' & Hl & Hiff). exists st'. split.
      { rewrite (foldlM_cons_ok _ _ _ _ st); [done|].
        apply aggregate_step_falsy. rewrite Hd. simpl. by rewrite Es. }
      rewrite Hiff. split; (intros [?|H]; [by left|right]).
      * apply (Hlater (seen_selectors st)); [|done].
        intros c' _. destruct (nonempty_selector c') eqn:Hn'; [left|by right].
        apply String.eqb_eq in Es as ->. unfold nonempty_selector in Hn'.
        destruct (selector_of c') as [s'|]; [|done]. intros [= ->]. done.
      * destruct H as ([|i] & sv & cf & Hi & He & Hn & Hu & Hfirst); simpl in Hi.
        { injection Hi as <- <-. congruence. }
        exists i, sv, cf. repeat split; [done..|].
        intros j p Hj Hp. apply (Hfirst (S j)); [lia|done].
    + destruct (decide (KStr s ∈ seen_selectors st)) as [Hin|Hin].
      * (* seen before: skipped *)
        destruct (IH st Hwf) as (st' & Hl & Hiff). exists st'. split.
        { rewrite (foldlM_cons_ok _ _ _ _ st); [done|].
          apply (aggregate_step_seen _ _ _ (KStr s)); rewrite ?Hd; simpl; by rewrite ?Es. }
        rewrite Hiff. split; (intros [?|H]; [by left|right]).
        -- apply (Hlater (seen_selectors st)); [|done].
           intros c' Hu. left. intros Hc'. by apply (Hu s).
        -- destruct H as ([|i] & sv & cf & Hi & He & Hn & Hu & Hfirst); simpl in Hi.
           { injection Hi as <- <-. exfalso. by apply (Hu s). }
           exists i, sv, cf. repeat split; [done..|].
           intros j p Hj Hp. apply (Hfirst (S j)); [lia|done].
      * (* fresh: appended *)
        destruct (IH (appended st sev (PDict d) (KStr s)) Hwf) as (st' & Hl & Hiff).
        exists st'. split.
        { rewrite (foldlM_cons_ok _ _ _ _ (appended st sev (PDict d) (KStr s))); [done|].
          apply aggregate_step_fresh; rewrite ?Hd; simpl; by rewrite ?Es. }
        rewrite Hiff. simpl. split.
        -- intros [Hh|H].
           ++ destruct (eq_str sev "error") eqn:Esev; [|by left].
              right. exists 0, sev, (PDict d). repeat split; [done..| |].
              ** intros s' Hs'. rewrite Hs in Hs'. by injection Hs' as <-.
              ** intros j p Hj. lia.
           ++ right. destruct H as (i & sv & cf & Hi & He & Hn & Hu & Hfirst).
              exists (S i), sv, cf. repeat split; [done..| |].
              ** intros s' Hs' Hin'. apply (Hu s' Hs'). rewrite elem_of_union. by right.
              ** intros [|j] p Hj; simpl.
                 --- intros [= <-]. cbn [snd]. rewrite Hs. intros Heq. symmetry in Heq.
                     apply (Hu s Heq). rewrite elem_of_union, elem_of_singleton. by left.
                 --- intros Hp. apply (Hfirst j); [lia|done].
        -- intros [Hh|H].
           ++ left. rewrite Hh. by destruct (eq_str sev "error").
           ++ destruct H as ([|i] & sv & cf & Hi & He & Hn & Hu & Hfirst); simpl in Hi.
              { injection Hi as <- <-. left. by rewrite He. }
              right. exists i, sv, cf. repeat split; [done..| |].
              ** intros s' Hs'. specialize (Hu s' Hs').
                 assert (Some s ≠ Some s') as Hdiff.
                 { rewrite <- Hs, <- Hs'. apply (Hfirst 0 (sev, PDict d)); [lia|done]. }
                 rewrite elem_of_union, elem_of_singleton. intros [[= ->]|?]; done.
              ** intros j p Hj Hp. apply (Hfirst (S j)); [lia|done].
Qed.

(** X10: on PatternConfigs the overall severity is [error] exactly when
    some [error] pair is appended, that is, when some [error] pair has a
    selector that is not empty and that no earlier pair has; otherwise it
    is [warn]. *)
Theorem aggregate_severity_exact (l : list (pyval * pyval)) :
  Forall (fun p => is_pattern_config p.2 = true) l ->
  ∃ rules severity count,
    aggregate_eslint_configs l = ([Aggregating (length l)], Ok (rules, severity, count)) ∧
    (severity = "error" ↔ appended_error_pair l) ∧
    (severity = "warn" ↔ ¬ appended_error_pair l).
Proof.
  intros Hwf. destruct (aggregate_loop_severity l agg_init Hwf) as (st & Hl & Hiff).
  exists (final_result st).1.1, (final_result st).1.2, (final_result st).2.
  split; [rewrite (aggregate_of_loop _ _ _ Hl); by destruct (final_result st) as [[??]?]|].
  rewrite severity_final_result.
  assert (Hiff' : highest_severity st = "error" ↔ appended_error_pair l).
  { rewrite Hiff. unfold appended_error_pair. simpl. split.
    - intros [?|(i & sv & cf & ? & ? & ? & _ & ?)]; [done|]. eauto 8.
    - intros (i & sv & cf & ? & ? & ? & ?). right. exists i, sv, cf.
      split; [done|]. split; [done|]. split; [done|]. split; [|done].
      intros ? _. apply not_elem_of_empty. }
  split; [done|]. rewrite <- Hiff'.
  apply aggregate_loop_returns in Hl as [_ (new & _ & [Hh|(Hh & _)])]; simpl in Hh;
    rewrite Hh; split; done.
Qed.

Lemma aggregate_severity_exact_witness :
  Forall (fun p => is_pattern_config p.2 = true)
    [(PStr "warn", pattern_config "a" "first");
     (PStr "error", pattern_config "a" "second")] ∧
  ∃ rules severity count,
    aggregate_eslint_configs
      [(PStr "warn", pattern_config "a" "first");
       (PStr "error", pattern_config "a" "second")] =
      ([Aggregating 2], Ok (rules, severity, count)) ∧
    (severity = "error" ↔
     appended_error_pair [(PStr "warn", pattern_config "a" "first");
                          (PStr "error", pattern_config "a" "second")]).
Proof.
  assert (Hwf : Forall (fun p => is_pattern_config p.2 = true)
    [(PStr "warn", pattern_config "a" "first");
     (PStr "error", pattern_config "a" "second")]) by repeat constructor.
  split; [exact Hwf|].
  destruct (aggregate_severity_exact _ Hwf) as (rules & sev & n & Hrun & Hiff & _).
  by exists rules, sev, n.
Defined.

(** X11: on any input on which the aggregator returns, the overall
    severity is [warn] or [error], and it is [error] only if some pair of
    the input has severity [error]: an input without [error] pairs yields
    [warn]. *)
Theorem aggregate_severity_from_error_pair (l : list (pyval * pyval)) w r :
  aggregate_eslint_configs l = (w, Ok r) ->
  (r.1.2 = "warn" ∨ r.1.2 = "error") ∧
  (r.1.2 = "error" -> Exists (fun p => eq_str p.1 "error" = true) l) ∧
  (Forall (fun p => eq_str p.1 "error" = false) l -> r.1.2 = "warn").
Proof.
  intros Hrun. destruct (aggregate_severity_sound l w r Hrun) as [Hw|(He & p & Hp & Hpe)].
  - rewrite Hw. split; [by left|]. split; [done|done].
  - split; [by right|]. split.
    + intros _. apply Exists_exists. eauto.
    + intros Hall. rewrite Forall_forall in Hall. specialize (Hall p Hp). congruence.
Qed.

Lemma aggregate_severity_from_error_pair_witness :
  aggregate_eslint_configs [(PStr "warn", pattern_config "a" "first")] =
    ([Aggregating 1],
     Ok ({[ "no-restricted-syntax" := PList [PStr "warn"; pattern_config "a" "first"] ]},
         "warn", 1)) ∧
  "warn" = "warn".
Proof.
  split; [reflexivity|].
  apply (aggregate_severity_from_error_pair
           [(PStr "warn", pattern_config "a" "first")] [Aggregating 1]
           ({[ "no-restricted-syntax" := PList [PStr "warn"; pattern_config "a" "first"] ]},
            "warn", 1)); [reflexivity|].
  by repeat constructor.
Defined.

(** ** The aggregator: order of the input *)

Lemma first_seen_selectors l s :
  s ∈ selector_of <$> first_seen l ↔ s ∈ selector_of <$> l.
Proof.
  rewrite !list_elem_of_fmap. split.
  - intros (c & -> & Hc%first_seen_elem_of). eauto.
  - intros (c & -> & Hc). destruct (first_seen_covers l c Hc) as (c' & Hc' & Heq). eauto.
Qed.

(** X12: two inputs of PatternConfigs that are permutations of each
    other give the same selectors, up to order, and the same count.  (The
    config that speaks for a selector and the overall severity do depend
    on the order.) *)
Theorem aggregate_order_insensitive (l1 l2 : list (pyval * pyval)) :
  Forall (fun p => is_pattern_config p.2 = true) l1 ->
  l1 ≡ₚ l2 ->
  ∃ rules1 severity1 rules2 severity2 count,
    aggregate_eslint_configs l1 = ([Aggregating (length l1)], Ok (rules1, severity1, count)) ∧
    aggregate_eslint_configs l2 = ([Aggregating (length l2)], Ok (rules2, severity2, count)) ∧
    selector_of <$> patterns rules1 ≡ₚ selector_of <$> patterns rules2.
Proof.
  intros Hwf1 Hperm.
  assert (Hwf2 : Forall (fun p => is_pattern_config p.2 = true) l2) by by rewrite <- Hperm.
  destruct (aggregate_pattern_configs l1 Hwf1) as (rules1 & sev1 & Hrun1 & Hp1).
  destruct (aggregate_pattern_configs l2 Hwf2) as (rules2 & sev2 & Hrun2 & Hp2).
  assert (Hsel : selector_of <$> patterns rules1 ≡ₚ selector_of <$> patterns rules2).
  { apply NoDup_Permutation.
    - rewrite Hp1. apply first_seen_NoDup.
    - rewrite Hp2. apply first_seen_NoDup.
    - intros s. rewrite Hp1, Hp2, !first_seen_selectors. by rewrite Hperm. }
  exists rules1, sev1, rules2, sev2, (length (patterns rules1)).
  split; [done|]. split; [|done]. rewrite Hrun2. do 3 f_equal.
  apply Permutation_length in Hsel. by rewrite !length_fmap in Hsel.
Qed.

Lemma aggregate_order_insensitive_witness :
  [(PStr "warn", pattern_config "a" "first"); (PStr "error", pattern_config "b" "second")]
    ≡ₚ [(PStr "error", pattern_config "b" "second"); (PStr "warn", pattern_config "a" "first")] ∧
  ∃ rules1 severity1 rules2 severity2 count,
    aggregate_eslint_configs
      [(PStr "warn", pattern_config "a" "first"); (PStr "error", pattern_config "b" "second")]
      = ([Aggregating 2], Ok (rules1, severity1, count)) ∧
    aggregate_eslint_configs
      [(PStr "error", pattern_config "b" "second"); (PStr "warn", pattern_config "a" "first")]
      = ([Aggregating 2], Ok (rules2, severity2, count)) ∧
    selector_of <$> patterns rules1 ≡ₚ selector_of <$> patterns rules2.
Proof.
  assert (Hperm :
    [(PStr "warn", pattern_config "a" "first"); (PStr "error", pattern_config "b" "second")]
    ≡ₚ [(PStr "error", pattern_config "b" "second"); (PStr "warn", pattern_config "a" "first")])
    by apply perm_swap.
  split; [exact Hperm|].
  refine (aggregate_order_insensitive _ _ _ Hperm). by repeat constructor.
Defined.

(** ** The aggregator: the rules object *)

(** X13: on PatternConfigs the rules object has its one entry,
    [no-restricted-syntax], exactly when some config has a selector that
    is not empty; the entry is then the overall severity followed by the
    deduplicated patterns, and the count, which never exceeds the number
    of pairs, is positive.  Otherwise the object is empty and the count
    is 0. *)
Theorem aggregate_rule_entry (l : list (pyval * pyval)) :
  Forall (fun p => is_pattern_config p.2 = true) l ->
  ∃ rules severity count,
    aggregate_eslint_configs l = ([Aggregating (length l)], Ok (rules, severity, count)) ∧
    count ≤ length l ∧
    (Exists (fun p => nonempty_selector p.2 = true) l ->
     rules = {[ "no-restricted-syntax" :=
                  PList (PStr severity :: first_seen (filter nonempty_selector l.*2)) ]} ∧
     0 < count) ∧
    (¬ Exists (fun p => nonempty_selector p.2 = true) l -> rules = ∅ ∧ count = 0).
Proof.
  intros Hwf. destruct (aggregate_loop_pattern_configs l agg_init Hwf) as (st & Hl & Hc).
  simpl in Hc. rewrite filter_Forall_id in Hc
    by (apply Forall_forall; intros c _ s _; apply not_elem_of_empty).
  exists (final_result st).1.1, (final_result st).1.2, (final_result st).2.
  split; [rewrite (aggregate_of_loop _ _ _ Hl); by destruct (final_result st) as [[??]?]|].
  rewrite count_final_result, Hc. split.
  { etrans; [apply sublist_length, first_seen_sublist|].
    etrans; [apply length_filter|]. by rewrite length_fmap. }
  unfold final_result. rewrite Hc. split.
  - intros (p & Hp & Hne)%Exists_exists.
    destruct (filter nonempty_selector l.*2) as [|c cs] eqn:Hf.
    + exfalso. eapply (filter_nil_not_elem_of (fun c => nonempty_selector c) _ p.2 Hf).
      * by rewrite Hne.
      * apply list_elem_of_fmap. eauto.
    + simpl. split; [done|lia].
  - intros Hnone. destruct (filter nonempty_selector l.*2) as [|c cs] eqn:Hf; [done|].
    exfalso. apply Hnone.
    assert (c ∈ filter nonempty_selector l.*2) as Hin by (rewrite Hf; left).
    apply list_elem_of_filter in Hin as [Hne (p & -> & Hp)%list_elem_of_fmap].
    apply Exists_exists. exists p. split; [done|]. by apply Is_true_true.
Qed.

Lemma aggregate_rule_entry_witness :
  Forall (fun p => is_pattern_config p.2 = true)
    [(PStr "warn", pattern_config "a" "first"); (PStr "warn", pattern_config "a" "second")] ∧
  ∃ rules severity count,
    aggregate_eslint_configs
      [(PStr "warn", pattern_config "a" "first"); (PStr "warn", pattern_config "a" "second")]
      = ([Aggregating 2], Ok (rules, severity, count)) ∧
    count ≤ 2.
Proof.
  assert (Hwf : Forall (fun p => is_pattern_config p.2 = true)
    [(PStr "warn", pattern_config "a" "first"); (PStr "warn", pattern_config "a" "second")])
    by repeat constructor.
  split; [exact Hwf|].
  destruct (aggregate_rule_entry _ Hwf) as (rules & sev & n & Hrun & Hle & _).
  by exists rules, sev, n.
Defined.

(** ** The aggregator: inputs it raises on *)

(** X14: after any PatternConfigs, a config that is not a dict makes the
    aggregator raise [AttributeError], and a dict whose selector is a
    non-empty list or dict makes it raise [TypeError]; in both cases it
    has written its opening line only and returns nothing. *)
Theorem aggregate_raises (before : list (pyval * pyval)) (severity config : pyval)
    (after : list (pyval * pyval)) :
  Forall (fun p => is_pattern_config p.2 = true) before ->
  (is_dict config = false ->
   aggregate_eslint_configs (before ++ (severity, config) :: after) =
   ([Aggregating (length (before ++ (severity, config) :: after))], Raise AttributeError)) ∧
  (∀ d, config = PDict d ->
     truthy (default PNone (d !! "selector")) = true ->
     hash_key (default PNone (d !! "selector")) = Raise TypeError ->
     aggregate_eslint_configs (before ++ (severity, config) :: after) =
     ([Aggregating (length (before ++ (severity, config) :: after))], Raise TypeError)).
Proof.
  intros Hwf. split.
  - intros Hc. apply aggregate_of_loop_raise. by apply aggregate_loop_not_dict.
  - intros d -> Ht Hk. apply aggregate_of_loop_raise. unfold aggregate_loop.
    destruct (aggregate_loop_pattern_configs before agg_init Hwf) as (st & Hl & _).
    rewrite (foldlM_app _ _ _ _ _ Hl).
    apply foldlM_cons_raise. by apply aggregate_step_unhashable.
Qed.

Lemma aggregate_raises_witness :
  aggregate_eslint_configs
    [(PStr "warn", pattern_config "a" "first"); (PStr "warn", PStr "text")] =
    ([Aggregating 2], Raise AttributeError) ∧
  aggregate_eslint_configs
    [(PStr "warn", pattern_config "a" "first");
     (PStr "warn", PDict {[ "selector" := PList [PStr "a"] ]})] =
    ([Aggregating 2], Raise TypeError).
Proof.
  assert (Hwf : Forall (fun p => is_pattern_config p.2 = true)
                  [(PStr "warn", pattern_config "a" "first")]) by repeat constructor.
  split.
  - pose proof (aggregate_raises _ (PStr "warn") (PStr "text") [] Hwf) as [H _].
    apply H. reflexivity.
  - pose proof (aggregate_raises _ (PStr "warn")
                  (PDict {[ "selector" := PList [PStr "a"] ]}) [] Hwf) as [_ H].
    apply (H {[ "selector" := PList [PStr "a"] ]}); reflexivity.
Defined.

(** ** The refine stage on any reply *)

Section RefineProperties.

Variable json_loads : string -> option pyval.

Lemma llm_refine_rule_fallback_call (client : Client) rule_text e :
  client Refine rule_text = Raise e ->
  llm_refine_rule json_loads client rule_text =
  ([RefineError rule_text e], Ok (PStr "passed_through", PList [PStr rule_text])).
Proof. intros H. unfold llm_refine_rule. by rewrite H. Qed.

Lemma llm_refine_rule_fallback_reply (client : Client) rule_text response e :
  client Refine rule_text = Ok response ->
  outcome (response_json json_loads response) = Raise e ->
  llm_refine_rule json_loads client rule_text =
  ([RefineError rule_text e], Ok (PStr "passed_through", PList [PStr rule_text])).
Proof.
  intros Hc Hr%response_json_outcome. unfold llm_refine_rule. rewrite Hc. msimpl.
  by rewrite Hr.
Qed.

Lemma llm_refine_rule_fallback_shape (client : Client) rule_text response v :
  client Refine rule_text = Ok response ->
  outcome (response_json json_loads response) = Ok v ->
  is_dict v = false ->
  llm_refine_rule json_loads client rule_text =
  ([RefineError rule_text AttributeError],
   Ok (PStr "passed_through", PList [PStr rule_text])).
Proof.
  intros Hc Hr%response_json_outcome Hv. unfold llm_refine_rule. rewrite Hc. msimpl.
  rewrite Hr. by destruct v.
Qed.

(** X15: the refine stage never raises, and what it returns is always
    normalized: with outcome [untranslatable] the list is empty, with
    outcome [passed_through] or [translated] it is not. *)
Theorem llm_refine_rule_normalized (client : Client) (rule_text : string) :
  ∃ w out rules,
    llm_refine_rule json_loads client rule_text = (w, Ok (out, rules)) ∧
    (eq_str out "untranslatable" = true -> truthy rules = false) ∧
    (eq_str out "passed_through" = true ∨ eq_str out "translated" = true ->
     truthy rules = true).
Proof.
  assert (Hfb : ∀ e,
    ∃ w out rules,
      ([RefineError rule_text e], Ok (PStr "passed_through", PList [PStr rule_text]))
        = (w, Ok (out, rules)) ∧
      (eq_str out "untranslatable" = true -> truthy rules = false) ∧
      (eq_str out "passed_through" = true ∨ eq_str out "translated" = true ->
       truthy rules = true)).
  { intros e. eexists _, _, _. split; [done|]. by split. }
  destruct (client Refine rule_text) as [response|e] eqn:Hc;
    [|rewrite (llm_refine_rule_fallback_call _ _ _ Hc); apply Hfb].
  destruct (outcome (response_json json_loads response)) as [v|e] eqn:Hr;
    [|rewrite (llm_refine_rule_fallback_reply _ _ _ _ Hc Hr); apply Hfb].
  destruct (is_dict v) eqn:Hv;
    [|rewrite (llm_refine_rule_fallback_shape _ _ _ _ Hc Hr Hv); apply Hfb].
  destruct v as [| | | | |d]; try done.
  apply response_json_outcome in Hr. unfold llm_refine_rule. rewrite Hc. msimpl.
  rewrite Hr. msimpl.
  set (o := default (PStr "untranslatable") (d !! "outcome")).
  set (rl := default (PList []) (d !! "refined_rules")).
  destruct (eq_str o "passed_through") eqn:E1.
  - apply eq_str_true in E1 as ->. simpl. destruct (truthy rl) eqn:T; simpl;
      (eexists _, _, _; split; [done|]); (split; [by intros ?|by intros [?|?]]).
  - destruct (eq_str o "translated") eqn:E2.
    + apply eq_str_true in E2 as ->. simpl. destruct (truthy rl) eqn:T; simpl;
        (eexists _, _, _; split; [done|]); (split; [by intros ?|by intros [?|?]]).
    + simpl. destruct (eq_str o "untranslatable") eqn:E3; simpl;
        (eexists _, _, _; split; [done|]).
      * apply eq_str_true in E3 as ->. split; [by intros ?|by intros [?|?]].
      * split; [congruence|]. intros [?|?]; congruence.
Qed.

(** X16: every failure of the refine stage falls back on the rule
    itself: when the call raises, when reading or parsing the reply
    raises, and when the parsed result is not a dict, the stage writes one
    error line and returns [passed_through] with the list [[rule_text]]. *)
Theorem llm_refine_rule_fallback (client : Client) (rule_text : string) :
  (∀ e, client Refine rule_text = Raise e ∨
        (∃ response, client Refine rule_text = Ok response ∧
                     outcome (response_json json_loads response) = Raise e) ->
     llm_refine_rule json_loads client rule_text =
     ([RefineError rule_text e], Ok (PStr "passed_through", PList [PStr rule_text]))) ∧
  (∀ response v, client Refine rule_text = Ok response ->
     outcome (response_json json_loads response) = Ok v -> is_dict v = false ->
     llm_refine_rule json_loads client rule_text =
     ([RefineError rule_text AttributeError],
      Ok (PStr "passed_through", PList [PStr rule_text]))).
Proof.
  split.
  - intros e [Hc|(response & Hc & Hr)].
    + by apply llm_refine_rule_fallback_call.
    + by eapply llm_refine_rule_fallback_reply.
  - intros response v. apply llm_refine_rule_fallback_shape.
Qed.

End RefineProperties.

Lemma llm_refine_rule_fallback_witness :
  llm_refine_rule sample_loads (fun _ _ => Raise (OtherException "APITimeoutError"))
    "No fallbacks" =
    ([RefineError "No fallbacks" (OtherException "APITimeoutError")],
     Ok (PStr "passed_through", PList [PStr "No fallbacks"])) ∧
  llm_refine_rule sample_loads (fun _ _ => Ok (chat_reply "junk")) "No fallbacks" =
    ([RefineError "No fallbacks" JSONDecodeError],
     Ok (PStr "passed_through", PList [PStr "No fallbacks"])).
Proof.
  split.
  - apply (llm_refine_rule_fallback sample_loads
             (fun _ _ => Raise (OtherException "APITimeoutError")) "No fallbacks").
    by left.
  - apply (llm_refine_rule_fallback sample_loads
             (fun _ _ => Ok (chat_reply "junk")) "No fallbacks").
    right. by exists (chat_reply "junk").
Defined.

(** ** The filter stage *)

Section FilterProperties.

Variable json_loads : string -> option pyval.

Lemma filter_attempt_reply (client : Client) raw_lines response v :
  client Filter (join_lines raw_lines) = Ok response ->
  outcome (response_json json_loads response) = Ok v ->
  outcome (filter_attempt json_loads client raw_lines) =
  match v with
  | PDict d =>
      match outcome (py_len (default (PList []) (d !! "lintable_rules"))) with
      | Ok found =>
          Ok (default (PList []) (d !! "lintable_rules"),
              default (PList []) (d !! "filtered_out"), found)
      | Raise e => Raise e
      end
  | _ => Raise AttributeError
  end.
Proof.
  intros Hc Hr%response_json_outcome. unfold filter_attempt. rewrite Hc. msimpl.
  rewrite Hr. msimpl. destruct v as [| | | | |d]; try done. simpl. msimpl.
  by destruct (default (PList []) (d !! "lintable_rules")).
Qed.

(** X17: the filter stage loses no line on a failure: when the call
    raises, when reading or parsing the reply raises, when the parsed
    result is not a dict, and when its [lintable_rules] has no length (a
    number, a boolean or null), the stage returns every input line as
    lintable and nothing as filtered out. *)
Theorem llm_filter_rules_fallback (client : Client) (raw_lines : list string) :
  (∀ e, client Filter (join_lines raw_lines) = Raise e ->
     (llm_filter_rules json_loads client raw_lines).2 =
     Ok (PList (PStr <$> raw_lines), PList [])) ∧
  (∀ response, client Filter (join_lines raw_lines) = Ok response ->
     (∀ d, outcome (response_json json_loads response) = Ok (PDict d) ->
        match default (PList []) (d !! "lintable_rules") with
        | PNone | PBool _ | PInt _ => True
        | _ => False
        end) ->
     (llm_filter_rules json_loads client raw_lines).2 =
     Ok (PList (PStr <$> raw_lines), PList [])).
Proof.
  split.
  - intros e Hc. unfold llm_filter_rules, filter_attempt. by rewrite Hc.
  - intros response Hc Hbad. unfold llm_filter_rules.
    destruct (outcome (response_json json_loads response)) as [v|e] eqn:Hr.
    + rewrite (filter_attempt_reply _ _ _ _ Hc Hr).
      destruct v as [| | | | |d]; try done. specialize (Hbad d eq_refl).
      by destruct (default (PList []) (d !! "lintable_rules")).
    + apply response_json_outcome in Hr. unfold filter_attempt. rewrite Hc. msimpl.
      by rewrite Hr.
Qed.

(** X18: a reply that parses to a dict is taken at its word: the stage
    returns its [lintable_rules] and [filtered_out] as they came, the
    empty list standing for a missing key, so that a reply without
    [lintable_rules] filters every line out, and it reports the length of
    [lintable_rules]. *)
Theorem llm_filter_rules_reply (client : Client) (raw_lines : list string)
    (response : pyobj) (d : gmap string pyval) (found : nat) :
  client Filter (join_lines raw_lines) = Ok response ->
  outcome (response_json json_loads response) = Ok (PDict d) ->
  outcome (py_len (default (PList []) (d !! "lintable_rules"))) = Ok found ->
  llm_filter_rules json_loads client raw_lines =
    ([FilteringRules; FilteringComplete found],
     Ok (default (PList []) (d !! "lintable_rules"),
         default (PList []) (d !! "filtered_out"))) ∧
  (d !! "lintable_rules" = None ->
   llm_filter_rules json_loads client raw_lines =
     ([FilteringRules; FilteringComplete 0],
      Ok (PList [], default (PList []) (d !! "filtered_out")))).
Proof.
  intros Hc Hr Hlen. unfold llm_filter_rules.
  rewrite (filter_attempt_reply _ _ _ _ Hc Hr). split.
  - by rewrite Hlen.
  - by intros ->.
Qed.

End FilterProperties.

Lemma llm_filter_rules_fallback_witness :
  (llm_filter_rules sample_loads
     (fun _ _ => Raise (OtherException "APITimeoutError")) ["a"; "b"]).2 =
    Ok (PList [PStr "a"; PStr "b"], PList []) ∧
  (llm_filter_rules (fun _ => Some (PDict {[ "lintable_rules" := PInt 3 ]}))
     (fun _ _ => Ok (chat_reply "reply")) ["a"; "b"]).2 =
    Ok (PList [PStr "a"; PStr "b"], PList []).
Proof.
  split.
  - by apply (llm_filter_rules_fallback sample_loads
                (fun _ _ => Raise (OtherException "APITimeoutError")) ["a"; "b"])
      with (e := OtherException "APITimeoutError").
  - apply (llm_filter_rules_fallback
             (fun _ => Some (PDict {[ "lintable_rules" := PInt 3 ]}))
             (fun _ _ => Ok (chat_reply "reply")) ["a"; "b"])
      with (response := chat_reply "reply"); [done|].
    by intros d [= <-].
Defined.

Lemma llm_filter_rules_reply_witness :
  llm_filter_rules (fun _ => Some (PDict {[ "filtered_out" := PList [PStr "a"] ]}))
    (fun _ _ => Ok (chat_reply "reply")) ["a"; "b"] =
    ([FilteringRules; FilteringComplete 0], Ok (PList [], PList [PStr "a"])).
Proof.
  destruct (llm_filter_rules_reply
              (fun _ => Some (PDict {[ "filtered_out" := PList [PStr "a"] ]}))
              (fun _ _ => Ok (chat_reply "reply")) ["a"; "b"] (chat_reply "reply")
              {[ "filtered_out" := PList [PStr "a"] ]} 0) as [_ H]; [reflexivity..|].
  apply H. reflexivity.
Defined.

(** ** The worker pool *)

(** X19: whatever the machine reports, the pool has between 5 and 8
    workers, so its size is never rejected as non-positive, and it has
    all 8 as soon as 4 processors are reported. *)
Theorem num_workers_bounds (cpu_count : option nat) :
  5 ≤ num_workers cpu_count ≤ MAX_WORKERS ∧
  (∀ n, cpu_count = Some n -> 4 ≤ n -> num_workers cpu_count = MAX_WORKERS) ∧
  (cpu_count = None ∨ cpu_count = Some 0 -> num_workers cpu_count = 5).
Proof.
  unfold num_workers, MAX_WORKERS. split; [|split].
  - destruct cpu_count as [[|n]|]; cbn [Nat.eqb]; lia.
  - intros n -> Hn. destruct n; cbn [Nat.eqb]; lia.
  - by intros [->| ->].
Qed.

Lemma num_workers_bounds_witness :
  num_workers (Some 16) = MAX_WORKERS ∧ num_workers None = 5.
Proof.
  pose proof (num_workers_bounds (Some 16)) as (_ & H16 & _).
  pose proof (num_workers_bounds None) as (_ & _ & HNone).
  split; [apply (H16 16); [reflexivity | lia] | apply HNone; by left].
Defined.

(** ** When the extract stage raises *)

Section ExtractRaises.

Variable json_loads : string -> option pyval.

Lemma getattr_raises o name w e : getattr o name = (w, Raise e) -> e = AttributeError.
Proof.
  destruct o as [|attrs|]; simpl; try by intros [= _ <-].
  destruct (attrs !! name); by intros [= _ <-].
Qed.

Lemma loads_raises o w e : loads json_loads o = (w, Raise e) -> e ≠ IndexError.
Proof.
  destruct o as [[| | |s| |]| |]; simpl; try by intros [= _ <-].
  destruct (json_loads s); by intros [= _ <-].
Qed.

(** An [IndexError] while reading the reply comes from [choices[0]]. *)
Lemma response_json_IndexError response :
  outcome (response_json json_loads response) = Raise IndexError ->
  subscript0 (getattr_default response "choices" (Seq [Val PNone])) = ([], Raise IndexError).
Proof.
  unfold response_json. destruct response as [v|attrs|items]; try done. simpl.
  destruct (attrs !! "choices") as [ch|] eqn:Hch; [|done]. simpl.
  unfold mbind, mret, M_bind, M_ret. simpl.
  pose proof (subscript0_silent ch) as Hs.
  destruct (subscript0 ch) as [w [choice|e]] eqn:Hsub; simpl in Hs; subst w.
  - destruct (getattr choice "message") as [w1 [message|e1]] eqn:Hm; simpl.
    + destruct (getattr message "content") as [w2 [content|e2]] eqn:Hct; simpl.
      * destruct (loads json_loads content) as [w3 [v|e3]] eqn:Hl; simpl; [done|].
        intros [= ->]. by apply loads_raises in Hl.
      * intros [= ->]. by apply getattr_raises in Hct.
    + intros [= ->]. by apply getattr_raises in Hm.
  - simpl. by intros [= ->].
Qed.

(** X20: the extract stage raises in exactly two situations, both in its
    first handler: the call itself raised one of the parse errors
    ([JSONDecodeError], [IndexError], [AttributeError]), and the handler
    raises [UnboundLocalError]; or reading the reply raised [IndexError]
    (no choices), and the handler raises [IndexError] again.  In every
    other situation it returns. *)
Theorem llm_extract_flags_raises_iff (client : Client) (rule_text : string) (e : exn) :
  outcome (llm_extract_flags json_loads client rule_text) = Raise e ↔
  (e = UnboundLocalError ∧
   ∃ e', client Extract rule_text = Raise e' ∧ is_parse_error e' = true) ∨
  (e = IndexError ∧
   ∃ response, client Extract rule_text = Ok response ∧
     outcome (response_json json_loads response) = Raise IndexError).
Proof.
  unfold llm_extract_flags.
  destruct (client Extract rule_text) as [response|e'] eqn:Hc.
  - destruct (outcome (response_json json_loads response)) as [v|e0] eqn:Hr.
    + apply response_json_outcome in Hr as Hr'. rewrite Hr'. split.
      * msimpl. destruct v as [| | | | |d]; try done.
        by destruct (d !! "flags") as [[| | | |?|]|].
      * intros [(_ & ? & ? & _)|(_ & r & [= <-] & Hr2)]; [done|]. congruence.
    + apply response_json_outcome in Hr as Hr'. rewrite Hr'. msimpl.
      assert (e0 = IndexError ∨ e0 ≠ IndexError) as [->|Hne]
        by (destruct e0; (by left) || (by right)).
      * unfold extract_handler. simpl. msimpl.
        rewrite (response_json_IndexError response Hr). simpl. split.
        -- intros [= <-]. right. split; [done|]. by exists response.
        -- intros [(_ & ? & ? & _)|(-> & _)]; done.
      * destruct (extract_handler_after_reply json_loads rule_text response e0 Hr Hne)
          as [w ->]. simpl. split; [done|].
        intros [(_ & ? & ? & _)|(_ & r & [= <-] & Hr2)]; [done|]. congruence.
  - unfold extract_handler. destruct (is_parse_error e') eqn:Hp; simpl.
    + split.
      * intros [= <-]. left. split; [done|]. by exists e'.
      * intros [(-> & _)|(_ & ? & ? & _)]; done.
    + split; [done|]. intros [(_ & e2 & [= <-] & Hp2)|(_ & ? & ? & _)]; [congruence|done].
Qed.

End ExtractRaises.
